(** * dynamic-hostports-k8s: a shallow embedding of [src/main.go]

    The controller watches pods carrying the [dynamic-hostports] label,
    creates one NodePort service and one endpoints object per requested
    port, writes the assigned node port back as a pod annotation, and
    deletes the services again when the pod goes away.

    The cluster is an abstract state machine ([Clientset]); every call the
    program makes through the client is appended, together with the error
    it returned, to a trace kept in the machine state.  The two Go maps
    [handledPods] and [cachedExternalIPs] are allocated once in
    [podManagerRoutine] and shared by reference by every call, so they are
    fields of the same machine state.

    Covered: [splitHostportStrings], [createService] and its helpers,
    [deletePodServices], [handlePodEvent], the event loop inside
    [podManagerRoutine], [deleteStaleServices] and [serviceManagerRoutine].
    Left out: the endless outer loop that reopens the watch, and the
    start-up code that finds the cluster configuration. *)

From Stdlib Require Import ZArith String Ascii DecimalString DecimalPos Lia.
From stdpp Require Import base option list strings gmap.

Local Open Scope string_scope.
Local Open Scope Z_scope.

(** ** Go values *)

(** Go's [error] interface, restricted to the dynamic types that reach this
    program: [*strconv.NumError], [errors.New] values, and whatever the
    cluster client returns. *)
Inductive error : Type :=
| NumError (Func Num : string) (Err : error)
| errorString (s : string)
| StatusError (message : string).

Module errors.
Definition New (text : string) : error := errorString text.
End errors.

(** [int32(x)] on a Go [int]: two's-complement truncation. *)
Definition int32 (x : Z) : Z := (x + 2 ^ 31) mod 2 ^ 32 - 2 ^ 31.

Module strings.

(** [strings.Split(s, sep)] for a one-byte separator: the pieces between
    the separators, in order; never the empty slice. *)
Fixpoint Split (s : string) (sep : ascii) : list string :=
  match s with
  | EmptyString => [EmptyString]
  | String c rest =>
      if Ascii.eqb c sep then EmptyString :: Split rest sep
      else match Split rest sep with
           | piece :: pieces => String c piece :: pieces
           | [] => [String c EmptyString]
           end
  end.

(** [strings.Join(elems, sep)] for a one-byte separator. *)
Fixpoint Join (elems : list string) (sep : ascii) : string :=
  match elems with
  | [] => EmptyString
  | [e] => e
  | e :: rest => e +:+ String sep (Join rest sep)
  end.

End strings.

Module strconv.

Definition ErrRange : error := errors.New "value out of range".
Definition ErrSyntax : error := errors.New "invalid syntax".

Definition syntaxError (fn str : string) : error := NumError fn str ErrSyntax.
Definition rangeError (fn str : string) : error := NumError fn str ErrRange.

(** The build target of the Dockerfile is a 64-bit platform. *)
Definition intSize : Z := 64.
Definition maxUint64 : Z := 2 ^ 64 - 1.

Definition isDigit (c : ascii) : bool :=
  let n := Z.of_nat (nat_of_ascii c) in (48 <=? n) && (n <=? 57).

Definition digitVal (c : ascii) : Z := Z.of_nat (nat_of_ascii c) - 48.

(** [ParseUint(s, 10, 64)]: the value, or the kind of failure.  A byte
    that is not a digit is a syntax error; an accumulator that leaves the
    unsigned 64-bit range is a range error (and the value is clamped). *)
Inductive uintResult : Type :=
| UintOk (n : Z)
| UintSyntax
| UintRange.

Fixpoint parseDigits (s : string) (n : Z) : uintResult :=
  match s with
  | EmptyString => UintOk n
  | String c rest =>
      if isDigit c then
        let n1 := n * 10 + digitVal c in
        if n1 >? maxUint64 then UintRange else parseDigits rest n1
      else UintSyntax
  end.

Definition ParseUint (s : string) : uintResult :=
  match s with
  | EmptyString => UintSyntax
  | _ => parseDigits s 0
  end.

(** [ParseInt(s, 10, 0)], reporting errors under the function name
    [fn] of the caller. *)
Definition ParseInt (fn s : string) : Z * option error :=
  match s with
  | EmptyString => (0, Some (syntaxError fn s))
  | String c0 rest =>
      let neg := Ascii.eqb c0 "-" in
      let body := if Ascii.eqb c0 "+" || neg then rest else s in
      let cutoff := 2 ^ (intSize - 1) in
      match ParseUint body with
      | UintSyntax => (0, Some (syntaxError fn s))
      | UintRange =>
          if neg then (- cutoff, Some (rangeError fn s))
          else (cutoff - 1, Some (rangeError fn s))
      | UintOk un =>
          if negb neg && (un >=? cutoff) then (cutoff - 1, Some (rangeError fn s))
          else if neg && (un >? cutoff) then (- cutoff, Some (rangeError fn s))
          else (if neg then - un else un, None)
      end
  end.

(** [strconv.Atoi]: an optional sign followed by decimal digits.  Its fast
    path for short strings computes what [ParseInt(s, 10, 0)] does. *)
Definition Atoi (s : string) : Z * option error := ParseInt "Atoi" s.

(** [strconv.Itoa]. *)
Definition Itoa (i : Z) : string := NilZero.string_of_int (Z.to_int i).

End strconv.

(** ** Constants of the program *)

Definition servicePrefix : string := "dynamic-hostports-service".
Definition annotationPrefix : string := "dynamic-hostports.k8s".
Definition labelKey : string := "dynamic-hostports".

Definition managedByLabelKey : string := "app.kubernetes.io/managed-by".
Definition managedByLabelValue : string := annotationPrefix.
Definition forPodLabelKey : string := "dynamic-hostports.k8s/for-pod".

(** ** Parsing the port list *)

(** The [for i, val := range splitted] loop: [mapped] is the slice made
    before the loop, [i] the index of [val]. *)
Fixpoint splitHostportLoop (splitted : list string) (i : nat) (mapped : list Z)
  : list Z * option error :=
  match splitted with
  | [] => (mapped, None)
  | val :: rest =>
      let '(port, err) := strconv.Atoi val in
      match err with
      | Some e => ([], Some e)
      | None =>
          if (port <=? 0) || (port >=? 65536)
          then ([], Some (errors.New "Port is not in valid range"))
          else splitHostportLoop rest (S i) (<[i := int32 port]> mapped)
      end
  end.

(** Will split a string of '8080.8082' to int32 array [8080, 8082]. *)
Definition splitHostportStrings (portsString : string) : list Z * option error :=
  let splitted := strings.Split portsString "." in
  let mapped := replicate (length splitted) 0 in
  splitHostportLoop splitted 0%nat mapped.

(** *** What the port-list label is meant to hold

    Independent of the parser: a token is numeric when it is a decimal
    integer literal (digits, optionally preceded by one sign), and its
    value is read positionally. *)

Fixpoint allDigits (s : string) : bool :=
  match s with
  | EmptyString => true
  | String c rest => strconv.isDigit c && allDigits rest
  end.

Definition digits (s : string) : bool :=
  match s with
  | EmptyString => false
  | _ => allDigits s
  end.

Definition numeric (t : string) : bool :=
  match t with
  | EmptyString => false
  | String c rest =>
      if Ascii.eqb c "+" || Ascii.eqb c "-" then digits rest else digits t
  end.

Fixpoint positional (s : string) : Z :=
  match s with
  | EmptyString => 0
  | String c rest => strconv.digitVal c * 10 ^ Z.of_nat (String.length rest) + positional rest
  end.

Definition decimalValue (t : string) : Z :=
  match t with
  | EmptyString => 0
  | String c rest =>
      if Ascii.eqb c "-" then - positional rest
      else if Ascii.eqb c "+" then positional rest
      else positional t
  end.

(** The separator byte does not occur in the string. *)
Fixpoint free (sep : ascii) (s : string) : bool :=
  match s with
  | EmptyString => true
  | String c rest => negb (Ascii.eqb c sep) && free sep rest
  end.

(** A token that names a port: numeric and strictly within (0, 65536). *)
Definition portToken (t : string) : Prop :=
  numeric t = true ∧ 0 < decimalValue t < 65536.

(** ** Kubernetes objects (the fields the program reads or writes) *)

Module v1.

Definition PodPhase : Type := string.
Definition PodRunning : PodPhase := "Running".

Definition NodeAddressType : Type := string.
Definition NodeExternalIP : NodeAddressType := "ExternalIP".

Definition ServiceType : Type := string.
Definition ServiceTypeNodePort : ServiceType := "NodePort".

Record ObjectMeta : Type := {
  Name : string;
  Namespace : string;
  Labels : gmap string string;
  Annotations : gmap string string
}.

Record PodSpec : Type := { NodeName : string }.
Record PodStatus : Type := { PodIP : string; Phase : PodPhase }.
Record Pod : Type := {
  PodMeta : ObjectMeta;
  Spec : PodSpec;
  Status : PodStatus
}.

Record EndpointAddress : Type := { IP : string }.
Record EndpointPort : Type := { EndpointPort_Port : Z }.
Record EndpointSubset : Type := {
  Addresses : list EndpointAddress;
  Ports : list EndpointPort
}.
Record Endpoints : Type := {
  EndpointsMeta : ObjectMeta;
  Subsets : list EndpointSubset
}.

Inductive IntOrString : Type :=
| FromInt (val : Z)
| FromString (val : string).

Record ServicePort : Type := {
  Port : Z;
  TargetPort : IntOrString;
  NodePort : Z
}.
Record ServiceSpec : Type := {
  Type_ : ServiceType;
  ServicePorts : list ServicePort;
  ExternalIPs : list string
}.
Record Service : Type := {
  ServiceMeta : ObjectMeta;
  ServiceSpec_ : ServiceSpec
}.

Record NodeAddress : Type := { AddressType : NodeAddressType; Address : string }.
Record Node : Type := { NodeAddresses : list NodeAddress }.

End v1.

Import v1.

(** A Go map index expression [m[k]]: the zero value when [k] is absent
    (also on a nil map). *)
Definition index (m : gmap string string) (k : string) : string :=
  default EmptyString (m !! k).

(** ** The cluster client *)

(** The requests the program sends through [client.CoreV1()]. *)
Inductive Call : Type :=
| EndpointsCreate (namespace : string) (endpoints : Endpoints)
| ServicesCreate (namespace : string) (service : Service)
| PodsPatch (namespace name data : string)
| NodesGet (name : string)
| ServicesDelete (namespace name : string)
| PodsList (namespace labelSelector : string)
| ServicesList (namespace labelSelector : string).

(** What the cluster answers, as a transition on an abstract cluster state.
    Nothing is assumed about the answers.  The typed client allocates the
    result object before it sends a request, so a value comes back next to
    the error even when the request fails (an empty list from a failed
    listing, for one). *)
Record Clientset (Cluster : Type) : Type := {
  endpointsCreate : string → Endpoints → Cluster → option error * Cluster;
  servicesCreate : string → Service → Cluster → (Service * option error) * Cluster;
  podsPatch : string → string → string → Cluster → option error * Cluster;
  nodesGet : string → Cluster → (Node * option error) * Cluster;
  servicesDelete : string → string → Cluster → option error * Cluster;
  podsList : string → string → Cluster → (list Pod * option error) * Cluster;
  servicesList : string → string → Cluster → (list Service * option error) * Cluster
}.

Arguments endpointsCreate {Cluster}.
Arguments servicesCreate {Cluster}.
Arguments podsPatch {Cluster}.
Arguments nodesGet {Cluster}.
Arguments servicesDelete {Cluster}.
Arguments podsList {Cluster}.
Arguments servicesList {Cluster}.

(** ** Log output *)

Inductive Logger : Type := Stdout | Stderr.

Inductive LogArg : Type :=
| AString (s : string)
| AInt (z : Z)
| AError (e : error).

(** One [Printf] call on [log] (stdout) or [logErr] (stderr): the format
    string and its arguments. *)
Record LogLine : Type := {
  logger : Logger;
  format : string;
  args : list LogArg
}.

Inductive PanicValue : Type :=
| IndexOutOfRange (i len : nat)
| PanicMessage (format : string) (args : list LogArg).

(** ** Watch events *)

Module watch.

Definition EventType : Type := string.
Definition Added : EventType := "ADDED".
Definition Modified : EventType := "MODIFIED".
Definition Deleted : EventType := "DELETED".
Definition Bookmark : EventType := "BOOKMARK".
Definition Error : EventType := "ERROR".

(** The dynamic type of [event.Object]: a [*v1.Pod] or something else. *)
Inductive Object : Type :=
| PodObject (pod : Pod)
| OtherObject.

Record Event : Type := { Type_ : EventType; Object_ : Object }.

End watch.

(** ** The machine *)

Section Controller.

Context {Cluster : Type} (client : Clientset Cluster).

Record State : Type := {
  cluster : Cluster;
  calls : list (Call * option error);
  output : list LogLine;
  handledPods : gmap string bool;
  cachedExternalIPs : gmap string string
}.

(** A run either returns a value or panics; both leave a state. *)
Inductive Outcome (A : Type) : Type :=
| Ret (a : A) (s : State)
| Panic (v : PanicValue) (s : State).
Arguments Ret {A}.
Arguments Panic {A}.

Definition final {A} (o : Outcome A) : State :=
  match o with Ret _ s => s | Panic _ s => s end.

Definition M (A : Type) : Type := State → Outcome A.

Definition ret {A} (a : A) : M A := λ s, Ret a s.

Definition bind {A B} (m : M A) (k : A → M B) : M B :=
  λ s, match m s with
       | Ret a s' => k a s'
       | Panic v s' => Panic v s'
       end.

Definition panic {A} (v : PanicValue) : M A := λ s, Panic v s.

Notation "'let!' x ':=' m 'in' k" := (bind m (λ x, k))
  (at level 10, x name, m at level 100, k at level 200, only parsing).
Notation "'do!' m 'in' k" := (bind m (λ _, k))
  (at level 10, m at level 100, k at level 200, only parsing).

Definition withOutput (s : State) (line : LogLine) : State :=
  {| cluster := cluster s;
     calls := calls s;
     output := output s ++ [line];
     handledPods := handledPods s;
     cachedExternalIPs := cachedExternalIPs s |}.

Definition withCall (s : State) (k : Cluster) (c : Call) (err : option error) : State :=
  {| cluster := k;
     calls := calls s ++ [(c, err)];
     output := output s;
     handledPods := handledPods s;
     cachedExternalIPs := cachedExternalIPs s |}.

Definition withHandledPods (s : State) (h : gmap string bool) : State :=
  {| cluster := cluster s;
     calls := calls s;
     output := output s;
     handledPods := h;
     cachedExternalIPs := cachedExternalIPs s |}.

Definition withCachedExternalIPs (s : State) (c : gmap string string) : State :=
  {| cluster := cluster s;
     calls := calls s;
     output := output s;
     handledPods := handledPods s;
     cachedExternalIPs := c |}.

Definition Printf (l : Logger) (fmt : string) (a : list LogArg) : M unit :=
  λ s, Ret tt (withOutput s {| logger := l; format := fmt; args := a |}).

(** Sends one request: the cluster moves on and the request is recorded
    with the error it came back with. *)
Definition request {A} (c : Call) (errOf : A → option error)
    (answer : Cluster → A * Cluster) : M A :=
  λ s, let '(a, k) := answer (cluster s) in Ret a (withCall s k c (errOf a)).

Definition Endpoints_Create (ns : string) (e : Endpoints) : M (option error) :=
  request (EndpointsCreate ns e) id (endpointsCreate client ns e).
Definition Services_Create (ns : string) (svc : Service) : M (Service * option error) :=
  request (ServicesCreate ns svc) snd (servicesCreate client ns svc).
Definition Pods_Patch (ns name data : string) : M (option error) :=
  request (PodsPatch ns name data) id (podsPatch client ns name data).
Definition Nodes_Get (name : string) : M (Node * option error) :=
  request (NodesGet name) snd (nodesGet client name).
Definition Services_Delete (ns name : string) : M (option error) :=
  request (ServicesDelete ns name) id (servicesDelete client ns name).
Definition Pods_List (ns sel : string) : M (list Pod * option error) :=
  request (PodsList ns sel) snd (podsList client ns sel).
Definition Services_List (ns sel : string) : M (list Service * option error) :=
  request (ServicesList ns sel) snd (servicesList client ns sel).

Definition getCachedExternalIPs : M (gmap string string) :=
  λ s, Ret (cachedExternalIPs s) s.
(** [cachedExternalIPs[k] = v] *)
Definition setCachedExternalIP (k v : string) : M unit :=
  λ s, Ret tt (withCachedExternalIPs s (<[k := v]> (cachedExternalIPs s))).
Definition getHandledPods : M (gmap string bool) :=
  λ s, Ret (handledPods s) s.
(** [handledPods[k] = true] and [delete(handledPods, k)] *)
Definition setHandledPod (k : string) : M unit :=
  λ s, Ret tt (withHandledPods s (<[k := true]> (handledPods s))).
Definition deleteHandledPod (k : string) : M unit :=
  λ s, Ret tt (withHandledPods s (delete k (handledPods s))).

(** ** The program *)

Definition podPortToAnnotation (requestedPort : Z) : string :=
  annotationPrefix +:+ "/" +:+ strconv.Itoa requestedPort.

Definition podPortToServiceName (pod : Pod) (requestedPort : Z) : string :=
  Name (PodMeta pod) +:+ "-" +:+ strconv.Itoa requestedPort.

(** The [for _, addr := range node.Status.Addresses] loop with its
    [break]; [ip] is the variable the loop may overwrite. *)
Fixpoint scanAddresses (nodeName : string) (addrs : list NodeAddress) (ip : string)
  : M string :=
  match addrs with
  | [] => ret ip
  | addr :: rest =>
      if String.eqb (AddressType addr) NodeExternalIP then
        let ip := Address addr in
        do! Printf Stdout "Caching ip of node '%s' => %s" [AString nodeName; AString ip] in
        do! setCachedExternalIP nodeName ip in
        ret ip
      else scanAddresses nodeName rest ip
  end.

Definition getOrFetchExternalNodeIp (nodeName : string) : M string :=
  let! cache := getCachedExternalIPs in
  match cache !! nodeName with
  | Some ip => ret ip
  | None =>
      let! r := Nodes_Get nodeName in
      match snd r with
      | Some err =>
          do! Printf Stdout "Got an error while fetching external ip of node '%s'. %s"
            [AString nodeName; AError err] in
          ret EmptyString
      | None => scanAddresses nodeName (NodeAddresses (fst r)) EmptyString
      end
  end.

Definition quote : string := String (ascii_of_nat 34) EmptyString.
Definition nl : string := String (ascii_of_nat 10) EmptyString.
Definition tab : string := String (ascii_of_nat 9) EmptyString.

(** The merge patch, byte for byte. *)
Definition serializedJson (requestedPort dynamicPort : Z) : string :=
  "{" +:+ nl +:+
  tab +:+ quote +:+ "kind" +:+ quote +:+ ": " +:+ quote +:+ "Pod" +:+ quote +:+ "," +:+ nl +:+
  tab +:+ quote +:+ "apiVersion" +:+ quote +:+ ": " +:+ quote +:+ "v1" +:+ quote +:+ "," +:+ nl +:+
  tab +:+ quote +:+ "metadata" +:+ quote +:+ ": {" +:+ nl +:+
  tab +:+ tab +:+ quote +:+ "annotations" +:+ quote +:+ ": {" +:+ nl +:+
  tab +:+ tab +:+ tab +:+ quote +:+ annotationPrefix +:+ "/" +:+ strconv.Itoa requestedPort
    +:+ quote +:+ ": " +:+ quote +:+ strconv.Itoa dynamicPort +:+ quote +:+ nl +:+
  tab +:+ tab +:+ "}" +:+ nl +:+
  tab +:+ "}" +:+ nl +:+
  "}".

Definition addPodPortAnnotation (pod : Pod) (requestedPort dynamicPort : Z)
  : M (option error) :=
  let! err := Pods_Patch (Namespace (PodMeta pod)) (Name (PodMeta pod))
           (serializedJson requestedPort dynamicPort) in
  match err with
  | Some e =>
      do! Printf Stderr "[%s] Adding annotation %d=>%d failed %s"
        [AString (Name (PodMeta pod)); AInt requestedPort; AInt dynamicPort; AError e] in
      ret err
  | None => ret err
  end.

Definition deleteService (namespace serviceName : string) : M (option error) :=
  Services_Delete namespace serviceName.

Definition createService (pod : Pod) (requestedPort : Z) : M (option error) :=
  if negb (String.eqb (index (Annotations (PodMeta pod)) (podPortToAnnotation requestedPort))
             EmptyString)
  then
    do! Printf Stdout "[%s] Pod already has service annotation for port %d. Skipping recreation."
          [AString (Name (PodMeta pod)); AInt requestedPort] in
    ret None
  else
    do! Printf Stdout "[%s] Create service for port %d"
          [AString (Name (PodMeta pod)); AInt requestedPort] in
    let serviceName := podPortToServiceName pod requestedPort in
    let meta :=
      {| Name := serviceName;
         Namespace := Namespace (PodMeta pod);
         Labels := <[managedByLabelKey := managedByLabelValue]>
                     (<[forPodLabelKey := Name (PodMeta pod)]> ∅);
         Annotations := ∅ |} in
    let! err := Endpoints_Create (Namespace (PodMeta pod))
                  {| EndpointsMeta := meta;
                     Subsets := [ {| Addresses := [ {| IP := PodIP (Status pod) |} ];
                                     Ports := [ {| EndpointPort_Port := requestedPort |} ] |} ] |} in
    match err with
    | Some e => ret (Some e)
    | None =>
        let serviceDef (externalIPs : list string) :=
          {| ServiceMeta := meta;
             ServiceSpec_ :=
               {| Type_ := ServiceTypeNodePort;
                  ServicePorts := [ {| Port := requestedPort;
                                       TargetPort := FromInt requestedPort;
                                       NodePort := 0 |} ];
                  ExternalIPs := externalIPs |} |} in
        let! externalIp := getOrFetchExternalNodeIp (NodeName (Spec pod)) in
        let! serviceDef :=
          (if negb (String.eqb externalIp EmptyString)
           then ret (serviceDef [externalIp])
           else
             do! Printf Stdout
                   "[%s] Got no ip of node '%s' are you using minikube? The service will exposed over all nodes."
                   [AString (Name (PodMeta pod)); AString (NodeName (Spec pod))] in
             ret (serviceDef [])) in
        let! created := Services_Create (Namespace (PodMeta pod)) serviceDef in
        match snd created with
        | Some e => ret (Some e)
        | None =>
            let newService := fst created in
            match ServicePorts (ServiceSpec_ newService) with
            | [] => panic (IndexOutOfRange 0 0)
            | port0 :: _ => addPodPortAnnotation pod requestedPort (NodePort port0)
            end
        end
    end.

(** The [for _, requestedPort := range requestedPorts] loop of
    [deletePodServices]. *)
Fixpoint deletePodServicesLoop (pod : Pod) (requestedPorts : list Z) : M (option error) :=
  match requestedPorts with
  | [] => ret None
  | requestedPort :: rest =>
      do! Printf Stdout "[%s] Deleting service for port %d."
            [AString (Name (PodMeta pod)); AInt requestedPort] in
      let! err := deleteService (Namespace (PodMeta pod))
                    (podPortToServiceName pod requestedPort) in
      match err with
      | Some e => ret (Some e)
      | None => deletePodServicesLoop pod rest
      end
  end.

Definition deletePodServices (pod : Pod) : M (option error) :=
  let '(requestedPorts, err) := splitHostportStrings (index (Labels (PodMeta pod)) labelKey) in
  match err with
  | Some e => ret (Some e)
  | None => deletePodServicesLoop pod requestedPorts
  end.

(** The [for _, requestedPort := range requestedPorts] loop of
    [handlePodEvent]. *)
Fixpoint createServicesLoop (pod : Pod) (requestedPorts : list Z) : M (option error) :=
  match requestedPorts with
  | [] => ret None
  | requestedPort :: rest =>
      let! err := createService pod requestedPort in
      match err with
      | Some e => ret (Some e)
      | None => createServicesLoop pod rest
      end
  end.

Definition namespacedPodName (pod : Pod) : string :=
  Namespace (PodMeta pod) +:+ "/" +:+ Name (PodMeta pod).

Definition handlePodEvent (eventType : watch.EventType) (pod : Pod) : M (option error) :=
  let namespacedPodName := namespacedPodName pod in
  if String.eqb eventType watch.Deleted then
    do! deleteHandledPod namespacedPodName in
    let! err := deletePodServices pod in
    match err with
    | Some e => ret (Some e)
    | None => ret None
    end
  else
    let! handled := getHandledPods in
    if default false (handled !! namespacedPodName) then
      do! Printf Stdout "[%s] Ignoring pod because it was already handled."
            [AString (Name (PodMeta pod))] in
      ret None
    else if String.eqb (PodIP (Status pod)) EmptyString then
      do! Printf Stdout "[%s] Ignoring pod because it does not have an ip."
            [AString (Name (PodMeta pod))] in
      ret None
    else if negb (String.eqb (Phase (Status pod)) PodRunning) then
      do! Printf Stdout "[%s] Ignoring pod because it is not running."
            [AString (Name (PodMeta pod))] in
      ret None
    else
      let '(requestedPorts, err) :=
        splitHostportStrings (index (Labels (PodMeta pod)) labelKey) in
      match err with
      | Some e => ret (Some e)
      | None =>
          do! setHandledPod namespacedPodName in
          createServicesLoop pod requestedPorts
      end.

(** The body of [for event := range eventChannel] in [podManagerRoutine],
    over the events one watch delivers before its channel closes. *)
Fixpoint podEventLoop (events : list watch.Event) : M unit :=
  match events with
  | [] => ret tt
  | event :: rest =>
      match watch.Object_ event with
      | watch.OtherObject =>
          do! Printf Stderr "Unexpected watch object" [] in
          panic (PanicMessage "Unexpected watch object" [])
      | watch.PodObject pod =>
          let! err := handlePodEvent (watch.Type_ event) pod in
          do! match err with
              | Some e => Printf Stderr "[%s] Failed to handle event %s"
                            [AString (Name (PodMeta pod)); AError e]
              | None => ret tt
              end in
          podEventLoop rest
      end
  end.

(** The inner [for _, pod := range pods.Items] loop with its [break]:
    the final value of [foundPod]. *)
Fixpoint foundPod (pods : list Pod) (forPod serviceNamespace : string) : bool :=
  match pods with
  | [] => false
  | pod :: rest =>
      if String.eqb (Name (PodMeta pod)) forPod
         && String.eqb (Namespace (PodMeta pod)) serviceNamespace
      then true
      else foundPod rest forPod serviceNamespace
  end.

(** The [for _, service := range services.Items] loop. *)
Fixpoint deleteStaleServicesLoop (pods : list Pod) (services : list Service) : M unit :=
  match services with
  | [] => ret tt
  | service :: rest =>
      let forPod := index (Labels (ServiceMeta service)) forPodLabelKey in
      do! (if negb (foundPod pods forPod (Namespace (ServiceMeta service))) then
             do! Printf Stdout "Delete stale service '%s'"
                   [AString (Name (ServiceMeta service))] in
             let! localErr := deleteService (Namespace (ServiceMeta service))
                                (Name (ServiceMeta service)) in
             match localErr with
             | Some e => Printf Stderr "Failed to delete service %s" [AError e]
             | None => ret tt
             end
           else ret tt) in
      deleteStaleServicesLoop pods rest
  end.

Definition deleteStaleServices (namespace : string) : M (option error) :=
  let! listedPods := Pods_List namespace labelKey in
  let pods := fst listedPods in
  let! listedServices := Services_List namespace
                           (managedByLabelKey +:+ "=" +:+ managedByLabelValue) in
  let services := fst listedServices in
  let err := snd listedServices in
  match err with
  | Some e => ret (Some e)
  | None =>
      do! deleteStaleServicesLoop pods services in
      ret None
  end.

Definition serviceManagerRoutine (namespace : string) : M unit :=
  let! err := deleteStaleServices namespace in
  match err with
  | Some e =>
      do! Printf Stderr "Error while deleting stale services %s" [AError e] in
      panic (PanicMessage "Error while deleting stale services %s" [AError e])
  | None => ret tt
  end.

(** The state [podManagerRoutine] starts from: both maps freshly made. *)
Definition initialState (k : Cluster) : State :=
  {| cluster := k; calls := []; output := [];
     handledPods := ∅; cachedExternalIPs := ∅ |}.

End Controller.

Arguments State : clear implicits.
Arguments Outcome : clear implicits.
Arguments Ret {Cluster A}.
Arguments Panic {Cluster A}.
Arguments final {Cluster A}.
Arguments initialState {Cluster}.

(** ** The watch loop

    [podManagerRoutine] never returns: it opens a watch, handles the events
    the watch delivers until its channel closes, and opens the next one.
    The model runs a finite prefix of that loop.  [watches] lists, one
    entry per pass, what [Watch] came back with: an error, or the events
    delivered on that watch.  When the list is used up the model stops at
    the point where the program would open the next watch. *)

Section Watching.

Context {Cluster : Type} (client : Clientset Cluster).

Fixpoint podManagerLoop (watches : list (option error * list watch.Event))
  : M (Cluster := Cluster) unit :=
  match watches with
  | [] => ret tt
  | (err, events) :: rest =>
      match err with
      | Some e =>
          bind (Printf Stderr "Error while create watch for pods %s" [AError e])
            (λ _, panic (PanicMessage "Error while create watch for pods %s" [AError e]))
      | None =>
          bind (podEventLoop client events)
            (λ _, bind (Printf Stdout "Restart loop" [])
                    (λ _, podManagerLoop rest))
      end
  end.

(** [make(map[string]string)] and [make(map[string]bool)]. *)
Definition makeMaps : M (Cluster := Cluster) unit :=
  λ s, Ret tt (withHandledPods (withCachedExternalIPs s ∅) ∅).

Definition podManagerRoutine (namespace : string)
    (watches : list (option error * list watch.Event)) : M (Cluster := Cluster) unit :=
  bind makeMaps
    (λ _, bind (Printf Stdout "Watching pods" [])
            (λ _, podManagerLoop watches)).

End Watching.

(** Every object of the events is a pod. *)
Definition onlyPods (events : list watch.Event) : Prop :=
  Forall (λ event, ∃ pod, watch.Object_ event = watch.PodObject pod) events.

(** *** Notions the statements below are phrased in *)

(** The first external address a node reports, if any. *)
Definition externalAddress (node : Node) : option string :=
  Address <$> List.find (λ a, String.eqb (AddressType a) NodeExternalIP) (NodeAddresses node).


Definition isStale (pods : list Pod) (service : Service) : bool :=
  negb (foundPod pods (index (Labels (ServiceMeta service)) forPodLabelKey)
          (Namespace (ServiceMeta service))).

Definition deletionOf (service : Service) : Call :=
  ServicesDelete (Namespace (ServiceMeta service)) (Name (ServiceMeta service)).

(** The services of a listing the reaper takes for stale. *)
Definition staleServices (pods : list Pod) (services : list Service) : list Service :=
  List.filter (isStale pods) services.

(** What the reaper logs for one stale service, given the error its
    deletion came back with: the announcement on stdout and, on failure,
    the error on stderr. *)
Definition reaperLines (reaped : Service * option error) : list LogLine :=
  {| logger := Stdout; format := "Delete stale service '%s'";
     args := [AString (Name (ServiceMeta reaped.1))] |}
  :: match reaped.2 with
     | Some e => [ {| logger := Stderr; format := "Failed to delete service %s";
                      args := [AError e] |} ]
     | None => []
     end.

Definition reaperCall (reaped : Service * option error) : Call * option error :=
  (deletionOf reaped.1, reaped.2).

(** The selector of the reaper's service listing. *)
Definition managedBySelector : string :=
  "app.kubernetes.io/managed-by=dynamic-hostports.k8s".

(** The request that deletes the service derived for one port of a pod. *)
Definition deletionFor (pod : Pod) (requestedPort : Z) : Call :=
  ServicesDelete (Namespace (PodMeta pod)) (podPortToServiceName pod requestedPort).

(** An event that cannot take [key] out of [handledPods]: anything but the
    deletion of the pod with that namespaced name. *)
Definition keepsHandled (key : string) (event : watch.Event) : Prop :=
  ¬ (watch.Type_ event = watch.Deleted
     ∧ ∃ pod, watch.Object_ event = watch.PodObject pod ∧ namespacedPodName pod = key).

Definition isServicesCreate (c : Call) : bool :=
  match c with ServicesCreate _ _ => true | _ => false end.
Definition isEndpointsCreate (c : Call) : bool :=
  match c with EndpointsCreate _ _ => true | _ => false end.
Definition isPodsPatch (c : Call) : bool :=
  match c with PodsPatch _ _ _ => true | _ => false end.
Definition isServicesDelete (c : Call) : bool :=
  match c with ServicesDelete _ _ => true | _ => false end.
Definition isNodesGet (c : Call) : bool :=
  match c with NodesGet _ => true | _ => false end.

(** Two states that differ at most in the log output. *)
Definition sameButOutput {Cluster} (s s' : State Cluster) : Prop :=
  cluster s' = cluster s ∧ calls s' = calls s
  ∧ handledPods s' = handledPods s ∧ cachedExternalIPs s' = cachedExternalIPs s.

(** [s'] is reached from [s] by issuing exactly the requests [issued], in
    that order: the log only grows, [handledPods] is untouched and no
    entry of [cachedExternalIPs] is lost or changed. *)
Definition after {Cluster} (s : State Cluster) (issued : list (Call * option error))
    (s' : State Cluster) : Prop :=
  calls s' = (calls s ++ issued)%list
  ∧ (∃ lines, output s' = (output s ++ lines)%list)
  ∧ handledPods s' = handledPods s
  ∧ (∀ node ip, cachedExternalIPs s !! node = Some ip → cachedExternalIPs s' !! node = Some ip).

(** The node queries one address lookup for [nodeName] issues from [s]:
    none when the cache knows the node, one otherwise. *)
Definition nodeLookups {Cluster} (nodeName : string) (s : State Cluster)
    (issued : list (Call * option error)) : Prop :=
  match cachedExternalIPs s !! nodeName with
  | Some _ => issued = []
  | None => ∃ r, issued = [(NodesGet nodeName, r)]
  end.

(** The line [addPodPortAnnotation] writes to stderr when the patch fails. *)
Definition patchFailedLine (pod : Pod) (requestedPort dynamicPort : Z) (e : error) : LogLine :=
  {| logger := Stderr;
     format := "[%s] Adding annotation %d=>%d failed %s";
     args := [AString (Name (PodMeta pod)); AInt requestedPort; AInt dynamicPort; AError e] |}.

(** The paths through one [createService] call, by outcome and requests
    issued. *)
Inductive createTrace {Cluster} (pod : Pod) (requestedPort : Z) (s : State Cluster)
  : Outcome Cluster (option error) → list (Call * option error) → Prop :=
| create_skipped s' :
    index (Annotations (PodMeta pod)) (podPortToAnnotation requestedPort) ≠ EmptyString →
    sameButOutput s s' →
    createTrace pod requestedPort s (Ret None s') []
| create_endpoints_failed s' endpoints e :
    createTrace pod requestedPort s (Ret (Some e) s')
      [(EndpointsCreate (Namespace (PodMeta pod)) endpoints, Some e)]
| create_service_failed s' endpoints lookups service e :
    nodeLookups (NodeName (Spec pod)) s lookups →
    createTrace pod requestedPort s (Ret (Some e) s')
      ((EndpointsCreate (Namespace (PodMeta pod)) endpoints, None)
         :: lookups ++ [(ServicesCreate (Namespace (PodMeta pod)) service, Some e)])
| create_no_port s' endpoints lookups service :
    nodeLookups (NodeName (Spec pod)) s lookups →
    createTrace pod requestedPort s (Panic (IndexOutOfRange 0 0) s')
      ((EndpointsCreate (Namespace (PodMeta pod)) endpoints, None)
         :: lookups ++ [(ServicesCreate (Namespace (PodMeta pod)) service, None)])
| create_patched s' endpoints lookups service dynamicPort r :
    nodeLookups (NodeName (Spec pod)) s lookups →
    (∀ e, r = Some e →
          ∃ lines, output s'
                   = (output s ++ lines ++ [patchFailedLine pod requestedPort dynamicPort e])%list) →
    createTrace pod requestedPort s (Ret r s')
      ((EndpointsCreate (Namespace (PodMeta pod)) endpoints, None)
         :: lookups ++ [(ServicesCreate (Namespace (PodMeta pod)) service, None);
                        (PodsPatch (Namespace (PodMeta pod)) (Name (PodMeta pod))
                           (serializedJson requestedPort dynamicPort), r)]).

(** ** A scripted cluster for the examples

    The cluster state is the script itself: what each kind of request
    answers.  Service creation hands back the submitted service with a node
    port assigned, as the API server does. *)

Record Script : Type := {
  endpointsError : option error;
  servicesError : option error;
  assignedNodePort : Z;
  patchError : option error;
  nodes : list (string * Node);
  failingDeletions : list string;
  listedPods : list Pod;
  podsListError : option error;
  listedServices : list Service;
  servicesListError : option error
}.

Definition assignNodePort (nodePort : Z) (service : Service) : Service :=
  {| ServiceMeta := ServiceMeta service;
     ServiceSpec_ :=
       {| Type_ := Type_ (ServiceSpec_ service);
          ServicePorts :=
            map (λ p, {| Port := Port p; TargetPort := TargetPort p; NodePort := nodePort |})
              (ServicePorts (ServiceSpec_ service));
          ExternalIPs := ExternalIPs (ServiceSpec_ service) |} |}.

Fixpoint assoc (name : string) (l : list (string * Node)) : option Node :=
  match l with
  | [] => None
  | (n, node) :: rest => if String.eqb n name then Some node else assoc name rest
  end.

Definition scripted : Clientset Script := {|
  endpointsCreate := λ _ _ k, (endpointsError k, k);
  servicesCreate := λ _ service k,
    ((assignNodePort (assignedNodePort k) service, servicesError k), k);
  podsPatch := λ _ _ _ k, (patchError k, k);
  nodesGet := λ name k,
    (match assoc name (nodes k) with
     | Some node => (node, None)
     | None => ({| NodeAddresses := [] |}, Some (StatusError "node not found"))
     end, k);
  servicesDelete := λ _ name k,
    (if existsb (String.eqb name) (failingDeletions k)
     then Some (StatusError "deletion refused") else None, k);
  podsList := λ _ _ k, ((listedPods k, podsListError k), k);
  servicesList := λ _ _ k, ((listedServices k, servicesListError k), k)
|}.

Definition podNamed (name label ip : string) (annotations : gmap string string) : Pod :=
  {| PodMeta := {| Name := name; Namespace := "default";
                   Labels := {[ labelKey := label ]};
                   Annotations := annotations |};
     Spec := {| NodeName := "node-1" |};
     Status := {| PodIP := ip; Phase := PodRunning |} |}.

Definition webPod : Pod := podNamed "web" "8080.8082" "10.0.0.7" ∅.
Definition pendingPod : Pod := podNamed "web" "8080.8082" EmptyString ∅.
Definition annotatedPod : Pod :=
  podNamed "web" "8080" "10.0.0.7" {[ "dynamic-hostports.k8s/8080" := "31000" ]}.
Definition mislabelledPod : Pod := podNamed "web" "8080.http" "10.0.0.7" ∅.

Definition serviceFor (name forPod : string) : Service :=
  {| ServiceMeta := {| Name := name; Namespace := "default";
                       Labels := {[ managedByLabelKey := managedByLabelValue;
                                    forPodLabelKey := forPod ]};
                       Annotations := ∅ |};
     ServiceSpec_ := {| Type_ := ServiceTypeNodePort; ServicePorts := []; ExternalIPs := [] |} |}.

Definition node1 : Node :=
  {| NodeAddresses := [ {| AddressType := "InternalIP"; Address := "192.168.0.4" |};
                        {| AddressType := "ExternalIP"; Address := "203.0.113.4" |} ] |}.

(** Everything succeeds; pod [a] is live and owns [a-8080], while nobody
    owns [b-9090]. *)
Definition healthy : Script :=
  {| endpointsError := None; servicesError := None; assignedNodePort := 31000;
     patchError := None; nodes := [("node-1", node1)]; failingDeletions := [];
     listedPods := [podNamed "a" "8080" "10.0.0.8" ∅]; podsListError := None;
     listedServices := [serviceFor "a-8080" "a"; serviceFor "b-9090" "b"];
     servicesListError := None |}.

Definition withPatchError (k : Script) (e : error) : Script :=
  {| endpointsError := endpointsError k; servicesError := servicesError k;
     assignedNodePort := assignedNodePort k; patchError := Some e; nodes := nodes k;
     failingDeletions := failingDeletions k; listedPods := listedPods k;
     podsListError := podsListError k; listedServices := listedServices k;
     servicesListError := servicesListError k |}.

Definition withEndpointsError (k : Script) (e : error) : Script :=
  {| endpointsError := Some e; servicesError := servicesError k;
     assignedNodePort := assignedNodePort k; patchError := patchError k; nodes := nodes k;
     failingDeletions := failingDeletions k; listedPods := listedPods k;
     podsListError := podsListError k; listedServices := listedServices k;
     servicesListError := servicesListError k |}.

Definition withFailingDeletions (k : Script) (names : list string) : Script :=
  {| endpointsError := endpointsError k; servicesError := servicesError k;
     assignedNodePort := assignedNodePort k; patchError := patchError k; nodes := nodes k;
     failingDeletions := names; listedPods := listedPods k;
     podsListError := podsListError k; listedServices := listedServices k;
     servicesListError := servicesListError k |}.

(** The pod listing fails and comes back empty. *)
Definition withPodsListError (k : Script) (e : error) : Script :=
  {| endpointsError := endpointsError k; servicesError := servicesError k;
     assignedNodePort := assignedNodePort k; patchError := patchError k; nodes := nodes k;
     failingDeletions := failingDeletions k; listedPods := [];
     podsListError := Some e; listedServices := listedServices k;
     servicesListError := servicesListError k |}.

Definition withNodes (k : Script) (l : list (string * Node)) : Script :=
  {| endpointsError := endpointsError k; servicesError := servicesError k;
     assignedNodePort := assignedNodePort k; patchError := patchError k; nodes := l;
     failingDeletions := failingDeletions k; listedPods := listedPods k;
     podsListError := podsListError k; listedServices := listedServices k;
     servicesListError := servicesListError k |}.

Definition conflict : error := StatusError "conflict".

(** The request kinds a run has sent, in order. *)
Definition kinds {Cluster} (s : State Cluster) : list string :=
  map (λ cr, match cr.1 with
             | EndpointsCreate _ _ => "endpoints.create"
             | ServicesCreate _ _ => "services.create"
             | PodsPatch _ _ _ => "pods.patch"
             | NodesGet _ => "nodes.get"
             | ServicesDelete _ name => "services.delete " +:+ name
             | PodsList _ _ => "pods.list"
             | ServicesList _ _ => "services.list"
             end) (calls s).

(** The state after the controller has exposed [webPod] on a healthy
    cluster. *)
Definition exposedState : State Script :=
  final (handlePodEvent scripted watch.Added webPod (initialState healthy)).

(** *** Notions for the parser's error reports *)

#[global] Instance portToken_dec t : Decision (portToken t).
Proof. unfold portToken. apply _. Defined.

(** The value of a numeric token fits a Go [int]. *)
Definition fitsInt (t : string) : Prop :=
  - 2 ^ 63 ≤ decimalValue t ≤ 2 ^ 63 - 1.

(** *** The objects derived for one port of a pod *)

Definition derivedMeta (pod : Pod) (requestedPort : Z) : ObjectMeta :=
  {| Name := podPortToServiceName pod requestedPort;
     Namespace := Namespace (PodMeta pod);
     Labels := <[managedByLabelKey := managedByLabelValue]>
                 (<[forPodLabelKey := Name (PodMeta pod)]> ∅);
     Annotations := ∅ |}.

Definition derivedEndpoints (pod : Pod) (requestedPort : Z) : Endpoints :=
  {| EndpointsMeta := derivedMeta pod requestedPort;
     Subsets := [ {| Addresses := [ {| IP := PodIP (Status pod) |} ];
                     Ports := [ {| EndpointPort_Port := requestedPort |} ] |} ] |}.

Definition derivedService (pod : Pod) (requestedPort : Z) (externalIPs : list string)
  : Service :=
  {| ServiceMeta := derivedMeta pod requestedPort;
     ServiceSpec_ :=
       {| Type_ := ServiceTypeNodePort;
          ServicePorts := [ {| Port := requestedPort;
                               TargetPort := FromInt requestedPort;
                               NodePort := 0 |} ];
          ExternalIPs := externalIPs |} |}.

(** The external addresses a service is restricted to, given the address
    the lookup came back with. *)
Definition restrictedTo (ip : string) : list string :=
  if String.eqb ip EmptyString then [] else [ip].

(** *** Replaying requests on the cluster *)

(** The cluster state one request leaves behind. *)
Definition respond {Cluster} (client : Clientset Cluster) (c : Call) (k : Cluster)
  : Cluster :=
  match c with
  | EndpointsCreate ns endpoints => (endpointsCreate client ns endpoints k).2
  | ServicesCreate ns service => (servicesCreate client ns service k).2
  | PodsPatch ns name data => (podsPatch client ns name data k).2
  | NodesGet name => (nodesGet client name k).2
  | ServicesDelete ns name => (servicesDelete client ns name k).2
  | PodsList ns sel => (podsList client ns sel k).2
  | ServicesList ns sel => (servicesList client ns sel k).2
  end.

(** The cluster state after the requests [issued] have been sent, one
    after the other, to a cluster in state [k]. *)
Fixpoint clusterAfter {Cluster} (client : Clientset Cluster)
    (issued : list (Call * option error)) (k : Cluster) : Cluster :=
  match issued with
  | [] => k
  | cr :: rest => clusterAfter client rest (respond client cr.1 k)
  end.

(** The paths through one [createService] call with the objects sent and,
    where the service creation succeeds, the answers received: the cluster
    answers the service creation in the state the earlier requests of the
    call left, and the patch in the state the service creation left. *)
Inductive createRun {Cluster} (client : Clientset Cluster)
    (pod : Pod) (requestedPort : Z) (s : State Cluster)
  : Outcome Cluster (option error) → list (Call * option error) → Prop :=
| run_skipped line :
    index (Annotations (PodMeta pod)) (podPortToAnnotation requestedPort) ≠ EmptyString →
    createRun client pod requestedPort s (Ret None (withOutput s line)) []
| run_endpoints_failed s' e :
    createRun client pod requestedPort s (Ret (Some e) s')
      [(EndpointsCreate (Namespace (PodMeta pod)) (derivedEndpoints pod requestedPort),
        Some e)]
| run_service_failed s' lookups e :
    nodeLookups (NodeName (Spec pod)) s lookups →
    createRun client pod requestedPort s (Ret (Some e) s')
      ((EndpointsCreate (Namespace (PodMeta pod)) (derivedEndpoints pod requestedPort), None)
         :: lookups
         ++ [(ServicesCreate (Namespace (PodMeta pod))
                (derivedService pod requestedPort
                   (restrictedTo (index (cachedExternalIPs s') (NodeName (Spec pod))))),
              Some e)])
| run_no_port s' lookups newService :
    nodeLookups (NodeName (Spec pod)) s lookups →
    (endpointsCreate client (Namespace (PodMeta pod)) (derivedEndpoints pod requestedPort)
       (cluster s)).1 = None →
    servicesCreate client (Namespace (PodMeta pod))
      (derivedService pod requestedPort
         (restrictedTo (index (cachedExternalIPs s') (NodeName (Spec pod)))))
      (clusterAfter client
         ((EndpointsCreate (Namespace (PodMeta pod)) (derivedEndpoints pod requestedPort),
           None) :: lookups)
         (cluster s))
    = ((newService, None), cluster s') →
    ServicePorts (ServiceSpec_ newService) = [] →
    createRun client pod requestedPort s (Panic (IndexOutOfRange 0 0) s')
      ((EndpointsCreate (Namespace (PodMeta pod)) (derivedEndpoints pod requestedPort), None)
         :: lookups
         ++ [(ServicesCreate (Namespace (PodMeta pod))
                (derivedService pod requestedPort
                   (restrictedTo (index (cachedExternalIPs s') (NodeName (Spec pod))))),
              None)])
| run_patched s' lookups newService k' port0 ports r :
    nodeLookups (NodeName (Spec pod)) s lookups →
    (endpointsCreate client (Namespace (PodMeta pod)) (derivedEndpoints pod requestedPort)
       (cluster s)).1 = None →
    servicesCreate client (Namespace (PodMeta pod))
      (derivedService pod requestedPort
         (restrictedTo (index (cachedExternalIPs s') (NodeName (Spec pod)))))
      (clusterAfter client
         ((EndpointsCreate (Namespace (PodMeta pod)) (derivedEndpoints pod requestedPort),
           None) :: lookups)
         (cluster s))
    = ((newService, None), k') →
    ServicePorts (ServiceSpec_ newService) = port0 :: ports →
    podsPatch client (Namespace (PodMeta pod)) (Name (PodMeta pod))
      (serializedJson requestedPort (NodePort port0)) k'
    = (r, cluster s') →
    createRun client pod requestedPort s (Ret r s')
      ((EndpointsCreate (Namespace (PodMeta pod)) (derivedEndpoints pod requestedPort), None)
         :: lookups
         ++ [(ServicesCreate (Namespace (PodMeta pod))
                (derivedService pod requestedPort
                   (restrictedTo (index (cachedExternalIPs s') (NodeName (Spec pod))))),
              None);
             (PodsPatch (Namespace (PodMeta pod)) (Name (PodMeta pod))
                (serializedJson requestedPort (NodePort port0)), r)]).

(** The request is one that exposing [requestedPort] of [pod] may send. *)
Definition requestFor (pod : Pod) (requestedPort : Z) (c : Call) : Prop :=
  match c with
  | EndpointsCreate ns endpoints =>
      ns = Namespace (PodMeta pod) ∧ endpoints = derivedEndpoints pod requestedPort
  | ServicesCreate ns service =>
      ns = Namespace (PodMeta pod)
      ∧ ∃ externalIPs, service = derivedService pod requestedPort externalIPs
  | PodsPatch ns name data =>
      ns = Namespace (PodMeta pod) ∧ name = Name (PodMeta pod)
      ∧ ∃ dynamicPort, data = serializedJson requestedPort dynamicPort
  | NodesGet name => name = NodeName (Spec pod)
  | _ => False
  end.

(** The cluster does not strip a service of all its ports: a successful
    creation of a service with at least one port comes back with at least
    one port. *)
Definition keepsPorts {Cluster} (client : Clientset Cluster) : Prop :=
  ∀ ns service k,
    ServicePorts (ServiceSpec_ service) ≠ [] →
    (servicesCreate client ns service k).1.2 = None →
    ServicePorts (ServiceSpec_ (servicesCreate client ns service k).1.1) ≠ [].

(** Every requested port of the pod already has its annotation. *)
Definition allAnnotated (pod : Pod) (requestedPorts : list Z) : Prop :=
  Forall (λ p, index (Annotations (PodMeta pod)) (podPortToAnnotation p) ≠ EmptyString)
    requestedPorts.

(** Every entry of the map is [true]. *)
Definition onlyTrue (handled : gmap string bool) : Prop :=
  ∀ key value, handled !! key = Some value → value = true.

(** More of the scripted cluster: a client that answers every service
    creation with a service stripped of its ports, pods and services with
    missing labels, and events. *)

Definition stripping : Clientset Script := {|
  endpointsCreate := endpointsCreate scripted;
  servicesCreate := λ _ service k,
    (({| ServiceMeta := ServiceMeta service;
         ServiceSpec_ := {| Type_ := Type_ (ServiceSpec_ service);
                            ServicePorts := [];
                            ExternalIPs := ExternalIPs (ServiceSpec_ service) |} |},
      servicesError k), k);
  podsPatch := podsPatch scripted;
  nodesGet := nodesGet scripted;
  servicesDelete := servicesDelete scripted;
  podsList := podsList scripted;
  servicesList := servicesList scripted
|}.

Definition unlabelledPod : Pod :=
  {| PodMeta := {| Name := "web"; Namespace := "default"; Labels := ∅; Annotations := ∅ |};
     Spec := {| NodeName := "node-1" |};
     Status := {| PodIP := "10.0.0.7"; Phase := PodRunning |} |}.


Definition eventFor (eventType : watch.EventType) (pod : Pod) : watch.Event :=
  {| watch.Type_ := eventType; watch.Object_ := watch.PodObject pod |}.

Definition strayEvent : watch.Event :=
  {| watch.Type_ := watch.Error; watch.Object_ := watch.OtherObject |}.

Definition withServicesListError (k : Script) (e : error) : Script :=
  {| endpointsError := endpointsError k; servicesError := servicesError k;
     assignedNodePort := assignedNodePort k; patchError := patchError k; nodes := nodes k;
     failingDeletions := failingDeletions k; listedPods := listedPods k;
     podsListError := podsListError k; listedServices := listedServices k;
     servicesListError := Some e |}.

(** A cluster whose answers depend on its state: the state counts the
    requests answered so far, and a created service gets the count as its
    node port. *)
Definition counting : Clientset Z := {|
  endpointsCreate := λ _ _ k, (None, k + 1);
  servicesCreate := λ _ service k, ((assignNodePort k service, None), k + 1);
  podsPatch := λ _ _ _ k, (None, k + 1);
  nodesGet := λ _ k, (({| NodeAddresses := [] |}, None), k + 1);
  servicesDelete := λ _ _ k, (None, k + 1);
  podsList := λ _ _ k, (([], None), k + 1);
  servicesList := λ _ _ k, (([], None), k + 1)
|}.

(** * Verification *)

(** ** Port lists *)

Section PortList.

Import strconv.

Example splitHostportStrings_readme :
  splitHostportStrings "8080.8082" = ([8080; 8082], None).
Proof. reflexivity. Qed.

Lemma isDigit_digitVal c : isDigit c = true → 0 ≤ digitVal c ≤ 9.
Proof. unfold isDigit, digitVal. lia. Qed.

Lemma positional_nonneg s : allDigits s = true → 0 ≤ positional s.
Proof.
  induction s as [|c s IH]; simpl; [lia|].
  intros [Hc Hs]%andb_prop. specialize (IH Hs).
  pose proof (isDigit_digitVal c Hc).
  assert (0 < 10 ^ Z.of_nat (String.length s)) by (apply Z.pow_pos_nonneg; lia).
  nia.
Qed.

Lemma parseDigits_digits s : ∀ n,
  allDigits s = true → 0 ≤ n ≤ maxUint64 →
  parseDigits s n =
    let v := n * 10 ^ Z.of_nat (String.length s) + positional s in
    if v >? maxUint64 then UintRange else UintOk v.
Proof.
  induction s as [|c s IH]; intros n Hs Hn.
  - cbn [parseDigits String.length positional]. cbv zeta.
    change (10 ^ Z.of_nat 0) with 1. rewrite Z.mul_1_r, Z.add_0_r.
    destruct (n >? maxUint64) eqn:E; [lia | done].
  - cbn [allDigits] in Hs. apply andb_prop in Hs as [Hc Hs].
    cbn [parseDigits String.length positional]. rewrite Hc. cbv zeta.
    pose proof (isDigit_digitVal c Hc) as Hd.
    pose proof (positional_nonneg s Hs) as Hp.
    assert (Hpow : 0 < 10 ^ Z.of_nat (String.length s))
      by (apply Z.pow_pos_nonneg; lia).
    rewrite Nat2Z.inj_succ, Z.pow_succ_r by lia.
    destruct (n * 10 + digitVal c >? maxUint64) eqn:E.
    + case_match eqn:E'; [done|].
      assert (n * 10 + digitVal c ≤ (n * 10 + digitVal c) * 10 ^ Z.of_nat (String.length s))
        by nia.
      lia.
    + rewrite IH by (done || lia). cbv zeta.
      replace ((n * 10 + digitVal c) * 10 ^ Z.of_nat (String.length s) + positional s)
        with (n * (10 * 10 ^ Z.of_nat (String.length s))
              + (digitVal c * 10 ^ Z.of_nat (String.length s) + positional s)) by ring.
      done.
Qed.

Lemma parseDigits_nondigit s : ∀ n,
  allDigits s = false → parseDigits s n = UintSyntax ∨ parseDigits s n = UintRange.
Proof.
  induction s as [|c s IH]; intros n Hs; [done|].
  cbn [allDigits] in Hs. cbn [parseDigits].
  destruct (isDigit c); [|by left]. cbn [andb] in Hs. cbv zeta.
  destruct (_ >? maxUint64); [by right | by apply IH].
Qed.

Lemma ParseUint_digits s :
  digits s = true →
  ParseUint s = if positional s >? maxUint64 then UintRange else UintOk (positional s).
Proof.
  destruct s as [|c s]; [done|]. intros Hs. unfold ParseUint.
  rewrite parseDigits_digits by (done || (unfold maxUint64; lia)).
  cbv zeta. by rewrite Z.mul_0_l, Z.add_0_l.
Qed.

Lemma ParseUint_nondigits s :
  digits s = false → ParseUint s = UintSyntax ∨ ParseUint s = UintRange.
Proof.
  destruct s as [|c s]; [by left|]. intros Hs. by apply parseDigits_nondigit.
Qed.

Lemma digits_positional_nonneg s : digits s = true → 0 ≤ positional s.
Proof. destruct s; [done|]. apply positional_nonneg. Qed.

(** [Atoi] succeeds exactly on the numeric tokens whose value fits an
    [int], and then returns that value. *)
Lemma Atoi_numeric t :
  numeric t = true → - 2 ^ 63 ≤ decimalValue t ≤ 2 ^ 63 - 1 →
  Atoi t = (decimalValue t, None).
Proof.
  destruct t as [|c t]; [done|]. unfold Atoi, ParseInt, numeric, decimalValue, intSize.
  destruct (Ascii.eqb_spec c "-") as [->|Hm].
  - cbn [Ascii.eqb Bool.eqb orb andb negb]. intros Hd Hv.
    rewrite ParseUint_digits by done.
    pose proof (digits_positional_nonneg t Hd).
    destruct (positional t >? maxUint64) eqn:E; [unfold maxUint64 in E; lia|].
    destruct (positional t >? 2 ^ (64 - 1)) eqn:E'; [lia | done].
  - destruct (Ascii.eqb_spec c "+") as [->|Hp].
    + cbn [orb andb negb]. intros Hd Hv.
      rewrite ParseUint_digits by done.
      destruct (positional t >? maxUint64) eqn:E; [unfold maxUint64 in E; lia|].
      destruct (positional t >=? 2 ^ (64 - 1)) eqn:E'; [lia | done].
    + cbn [orb andb negb]. intros Hd Hv.
      rewrite ParseUint_digits by done.
      destruct (positional _ >? maxUint64) eqn:E; [unfold maxUint64 in E; lia|].
      destruct (positional _ >=? 2 ^ (64 - 1)) eqn:E'; [lia | done].
Qed.

Lemma Atoi_rejects t :
  numeric t = false ∨ ¬ (- 2 ^ 63 ≤ decimalValue t ≤ 2 ^ 63 - 1) →
  ∃ v e, Atoi t = (v, Some e).
Proof.
  destruct t as [|c t]; [by eexists _, _|].
  unfold Atoi, ParseInt, numeric, decimalValue, intSize.
  destruct (Ascii.eqb_spec c "-") as [->|Hm];
    [|destruct (Ascii.eqb_spec c "+") as [->|Hpl]];
    cbn [Ascii.eqb Bool.eqb orb andb negb];
    (match goal with
     | |- digits ?b = false ∨ _ → _ => destruct (digits b) eqn:Hd
     end;
     [ intros [|Hv]; [done|];
       rewrite ParseUint_digits by done;
       pose proof (digits_positional_nonneg _ Hd) as Hp;
       repeat case_match; simplify_eq; try (by eexists _, _); exfalso;
       cbn [positional] in *; lia
     | intros _;
       destruct (ParseUint_nondigits _ Hd) as [-> | ->]; by eexists _, _ ]).
Qed.

Lemma Atoi_inv t v : Atoi t = (v, None) → numeric t = true ∧ v = decimalValue t.
Proof.
  intros Ht.
  destruct (numeric t) eqn:Hn.
  - destruct (decide (- 2 ^ 63 ≤ decimalValue t ≤ 2 ^ 63 - 1)) as [Hv|Hv].
    + rewrite Atoi_numeric in Ht by done. by simplify_eq.
    + destruct (Atoi_rejects t) as (? & ? & ?); [by right | congruence].
  - destruct (Atoi_rejects t) as (? & ? & ?); [by left | congruence].
Qed.

Lemma int32_port v : 0 < v < 65536 → int32 v = v.
Proof.
  intros Hv. unfold int32. rewrite Z.mod_small; lia.
Qed.

Lemma splitHostportLoop_accepts splitted : ∀ i mapped,
  Forall portToken splitted →
  (i + length splitted = length mapped)%nat →
  splitHostportLoop splitted i mapped
  = ((take i mapped ++ map decimalValue splitted)%list, None).
Proof.
  induction splitted as [|val rest IH]; intros i mapped Hall Hlen; simpl in *.
  - rewrite take_ge by lia. by rewrite app_nil_r.
  - apply Forall_cons in Hall as [[Hnum Hval] Hall].
    rewrite Atoi_numeric by (done || lia).
    replace ((decimalValue val <=? 0) || (decimalValue val >=? 65536)) with false by lia.
    rewrite int32_port by done.
    rewrite IH by (done || rewrite length_insert; lia).
    rewrite (take_S_r _ _ (decimalValue val))
      by (apply list_lookup_insert_eq; lia).
    rewrite take_insert_ge by lia.
    by rewrite <- app_assoc.
Qed.

Lemma splitHostportLoop_rejects splitted : ∀ i mapped,
  Exists (λ t, ¬ portToken t) splitted →
  ∃ e, splitHostportLoop splitted i mapped = ([], Some e).
Proof.
  induction splitted as [|val rest IH]; intros i mapped Hex; simpl.
  - by apply Exists_nil in Hex.
  - destruct (Atoi val) as [port [e|]] eqn:Hval; [by eexists|].
    destruct ((port <=? 0) || (port >=? 65536)) eqn:Hrange; [by eexists|].
    apply IH. apply Exists_cons in Hex as [Hbad|Hex]; [|done].
    destruct Hbad. apply Atoi_inv in Hval as [Hnum ->]. split; [done | lia].
Qed.

Lemma Split_nonempty s sep : strings.Split s sep ≠ [].
Proof. induction s as [|c s IH]; simpl; [done|]. by repeat case_match. Qed.

Lemma Split_free sep s : free sep s = true → strings.Split s sep = [s].
Proof.
  induction s as [|c s IH]; simpl; [done|].
  intros [Hc Hs]%andb_prop. apply negb_true_iff in Hc. rewrite Hc, IH; done.
Qed.

Lemma Split_append sep s rest :
  free sep s = true →
  strings.Split (s +:+ String sep rest) sep = s :: strings.Split rest sep.
Proof.
  induction s as [|c s IH]; simpl.
  - by rewrite Ascii.eqb_refl.
  - intros [Hc Hs]%andb_prop. apply negb_true_iff in Hc. rewrite Hc, IH; done.
Qed.

Lemma Split_Join sep elems :
  elems ≠ [] → Forall (λ e, free sep e = true) elems →
  strings.Split (strings.Join elems sep) sep = elems.
Proof.
  induction elems as [|e rest IH]; [done|]. intros _ Hall.
  apply Forall_cons in Hall as [He Hall].
  destruct rest as [|e' rest]; [by apply Split_free|].
  change (strings.Join (e :: e' :: rest) sep)
    with (e +:+ String sep (strings.Join (e' :: rest) sep)).
  rewrite Split_append by done. by rewrite IH.
Qed.

Lemma allDigits_free s : allDigits s = true → free "." s = true.
Proof.
  induction s as [|c s IH]; simpl; [done|].
  intros [Hc Hs]%andb_prop. rewrite IH by done.
  destruct (Ascii.eqb_spec c "."); [by subst|done].
Qed.

Lemma digits_free s : digits s = true → free "." s = true.
Proof. destruct s; [done|]. apply allDigits_free. Qed.

Lemma numeric_free t : numeric t = true → free "." t = true.
Proof.
  destruct t as [|c t]; [done|]. unfold numeric.
  destruct (Ascii.eqb_spec c "+") as [->|]; [simpl; apply digits_free|].
  destruct (Ascii.eqb_spec c "-") as [->|]; [simpl; apply digits_free|].
  simpl. apply (digits_free (String c t)).
Qed.

(** C2.  Parsing a port-list label.  When every dot-separated token of
    the string is a decimal number strictly within (0, 65536), the result
    is the list of their values, one per token and in the order of the
    string, with no error; this covers every string written as
    [p1.p2...pn] from n >= 1 such tokens.  When some token is not numeric
    or lies outside that range, the result is an error together with the
    nil slice: no port of the list is returned. *)
Theorem splitHostportStrings_all_or_nothing :
  (∀ portsString,
     Forall portToken (strings.Split portsString ".") →
     splitHostportStrings portsString
     = (map decimalValue (strings.Split portsString "."), None))
  ∧ (∀ tokens,
       tokens ≠ [] → Forall portToken tokens →
       splitHostportStrings (strings.Join tokens ".") = (map decimalValue tokens, None)
       ∧ length (fst (splitHostportStrings (strings.Join tokens "."))) = length tokens
       ∧ Forall (λ p, 0 < p < 65536) (fst (splitHostportStrings (strings.Join tokens "."))))
  ∧ (∀ portsString,
       Exists (λ t, numeric t = false ∨ ¬ (0 < decimalValue t < 65536))
         (strings.Split portsString ".") →
       ∃ e, splitHostportStrings portsString = ([], Some e)).
Proof.
  assert (Hok : ∀ portsString,
     Forall portToken (strings.Split portsString ".") →
     splitHostportStrings portsString
     = (map decimalValue (strings.Split portsString "."), None)).
  { intros portsString Hall. unfold splitHostportStrings.
    rewrite splitHostportLoop_accepts by (done || by rewrite length_replicate).
    done. }
  split; [done|]. split.
  - intros tokens Hne Hall.
    assert (Hsplit : strings.Split (strings.Join tokens ".") "." = tokens).
    { apply Split_Join; [done|].
      eapply Forall_impl; [exact Hall|]. intros t [Hnum _]. by apply numeric_free. }
    rewrite Hok by (by rewrite Hsplit). rewrite Hsplit. simpl.
    split; [done|]. split; [by rewrite length_map|].
    apply Forall_map. eapply Forall_impl; [exact Hall|]. by intros t [_ Hv].
  - intros portsString Hex. unfold splitHostportStrings.
    apply splitHostportLoop_rejects.
    eapply Exists_impl; [exact Hex|]. intros t Hbad [Hnum Hval].
    destruct Hbad; [congruence | done].
Qed.

End PortList.

(** ** The controller *)

Section ControllerFacts.

Context {Cluster : Type} (client : Clientset Cluster).

Implicit Types (s : State Cluster) (pod : Pod).

Local Ltac unfold_m :=
  unfold bind, ret, panic, Printf, request, getCachedExternalIPs, setCachedExternalIP,
    getHandledPods, setHandledPod, deleteHandledPod.
Local Ltac unfold_m_in H :=
  unfold bind, ret, panic, Printf, request, getCachedExternalIPs, setCachedExternalIP,
    getHandledPods, setHandledPod, deleteHandledPod in H.

Lemma scanAddresses_eq nodeName addrs ip s :
  scanAddresses nodeName addrs ip s =
    match Address <$> List.find (λ a, String.eqb (AddressType a) NodeExternalIP) addrs with
    | Some a =>
        Ret a (withCachedExternalIPs
                 (withOutput s {| logger := Stdout;
                                  format := "Caching ip of node '%s' => %s";
                                  args := [AString nodeName; AString a] |})
                 (<[nodeName := a]> (cachedExternalIPs s)))
    | None => Ret ip s
    end.
Proof.
  induction addrs as [|addr rest IH]; simpl; [done|].
  destruct (String.eqb _ _); [done | apply IH].
Qed.

Lemma after_refl s : after s [] s.
Proof.
  unfold after. rewrite app_nil_r. repeat split; try done. exists []. by rewrite app_nil_r.
Qed.

Lemma after_trans s1 s2 s3 issued12 issued23 :
  after s1 issued12 s2 → after s2 issued23 s3 → after s1 (issued12 ++ issued23) s3.
Proof.
  intros (Hc1 & [l1 Ho1] & Hh1 & Hm1) (Hc2 & [l2 Ho2] & Hh2 & Hm2).
  repeat split.
  - by rewrite Hc2, Hc1, app_assoc.
  - exists (l1 ++ l2)%list. by rewrite Ho2, Ho1, app_assoc.
  - by rewrite Hh2.
  - eauto.
Qed.

Lemma after_eq s issued issued' s' :
  after s issued s' → issued = issued' → after s issued' s'.
Proof. by intros ? <-. Qed.

Lemma after_output s line : after s [] (withOutput s line).
Proof.
  unfold after; simpl. rewrite app_nil_r. repeat split; try done. by eexists.
Qed.

Lemma after_call s k c r : after s [(c, r)] (withCall s k c r).
Proof.
  unfold after; simpl. repeat split; try done. exists []. by rewrite app_nil_r.
Qed.

Lemma sameButOutput_output s line : sameButOutput s (withOutput s line).
Proof. by repeat split. Qed.

(** One address lookup: what it returns, what it asks and what it
    remembers. *)
Lemma getOrFetchExternalNodeIp_hit nodeName s ip :
  cachedExternalIPs s !! nodeName = Some ip →
  getOrFetchExternalNodeIp client nodeName s = Ret ip s.
Proof.
  intros Hhit. unfold getOrFetchExternalNodeIp. unfold_m. by rewrite Hhit.
Qed.

Lemma getOrFetchExternalNodeIp_miss nodeName s node err k :
  cachedExternalIPs s !! nodeName = None →
  nodesGet client nodeName (cluster s) = ((node, err), k) →
  ∃ s', getOrFetchExternalNodeIp client nodeName s
        = Ret (match err, externalAddress node with
               | None, Some a => a
               | _, _ => EmptyString
               end) s'
        ∧ cluster s' = k
        ∧ after s [(NodesGet nodeName, err)] s'
        ∧ cachedExternalIPs s'
          = match err, externalAddress node with
            | None, Some a => <[nodeName := a]> (cachedExternalIPs s)
            | _, _ => cachedExternalIPs s
            end.
Proof.
  intros Hmiss Hget. unfold getOrFetchExternalNodeIp, Nodes_Get. unfold_m.
  rewrite Hmiss, Hget. simpl. destruct err as [e|].
  - eexists. split; [done|]. split; [done|]. split; [|done].
    eapply (after_trans _ _ _ [_] []); [apply after_call | apply after_output].
  - rewrite scanAddresses_eq. unfold externalAddress.
    destruct (Address <$> List.find _ _) as [a|].
    + eexists. split; [done|]. split; [done|]. split; [|done].
      unfold after; simpl. repeat split; [by eexists|].
      intros node' ip' Hin. rewrite lookup_insert_ne; [done | congruence].
    + eexists. split; [done|]. split; [done|]. split; [|done]. apply after_call.
Qed.

Lemma getOrFetchExternalNodeIp_after nodeName s :
  ∃ ip s' lookups,
    getOrFetchExternalNodeIp client nodeName s = Ret ip s'
    ∧ after s lookups s' ∧ nodeLookups nodeName s lookups.
Proof.
  unfold nodeLookups.
  destruct (cachedExternalIPs s !! nodeName) as [ip|] eqn:Hcache.
  - exists ip, s, []. rewrite (getOrFetchExternalNodeIp_hit _ _ ip) by done.
    split; [done|]. split; [apply after_refl | done].
  - destruct (nodesGet client nodeName (cluster s)) as [[node err] k] eqn:Hget.
    destruct (getOrFetchExternalNodeIp_miss _ _ _ _ _ Hcache Hget) as (s' & -> & _ & Hafter & _).
    eexists _, s', _. split; [done|]. split; [done|]. by eexists.
Qed.

Lemma createService_trace pod requestedPort s :
  ∃ issued,
    after s issued (final (createService client pod requestedPort s))
    ∧ createTrace pod requestedPort s (createService client pod requestedPort s) issued.
Proof.
  remember (createService client pod requestedPort s) as o eqn:Ho.
  unfold createService in Ho.
  destruct (String.eqb_spec
              (index (Annotations (PodMeta pod)) (podPortToAnnotation requestedPort))
              EmptyString) as [Hann|Hann]; cbn [negb] in Ho.
  2:{ exists []. unfold_m_in Ho. subst o. cbn [final]. split; [apply after_output|].
      constructor; [done | apply sameButOutput_output]. }
  unfold bind at 1 in Ho. unfold Printf at 1 in Ho.
  set (s0 := withOutput s _) in Ho.
  assert (H0 : after s [] s0) by apply after_output.
  unfold bind at 1 in Ho. unfold Endpoints_Create, request in Ho.
  destruct (endpointsCreate client _ _ (cluster s0)) as [[e|] k1] eqn:Hep;
    cbn [id] in Ho.
  { unfold ret in Ho. subst o. eexists [_]. cbn [final]. split; [|constructor].
    eapply (after_trans _ _ _ [] [_]); [exact H0 | apply after_call]. }
  set (s1 := withCall s0 k1 _ _) in Ho.
  assert (H1 : after s [(EndpointsCreate (Namespace (PodMeta pod)) _, None)] s1)
    by (eapply (after_trans _ _ _ [] [_]); [exact H0 | apply after_call]).
  unfold bind at 1 in Ho.
  destruct (getOrFetchExternalNodeIp_after (NodeName (Spec pod)) s1)
    as (ip & s2 & lookups & Hip & H2 & Hlookups).
  rewrite Hip in Ho.
  assert (Hlookups' : nodeLookups (NodeName (Spec pod)) s lookups) by exact Hlookups.
  unfold bind at 1 in Ho.
  set (choose := if negb _ then _ else _) in Ho.
  assert (Hchoose : ∃ serviceDef s3, choose s2 = Ret serviceDef s3 ∧ after s2 [] s3).
  { subst choose. destruct (negb _); unfold_m; eexists _, _; (split; [done|]);
      [apply after_refl | apply after_output]. }
  destruct Hchoose as (serviceDef & s3 & Hchoose & H3). rewrite Hchoose in Ho.
  clear Hchoose choose.
  pose proof (after_trans _ _ _ _ _ (after_trans _ _ _ _ _ H1 H2) H3) as H13.
  unfold bind at 1 in Ho. unfold Services_Create, request in Ho.
  destruct (servicesCreate client _ serviceDef (cluster s3))
    as [[newService [e|]] k4] eqn:Hsvc; cbn [snd fst] in Ho.
  { unfold ret in Ho. subst o. eexists. cbn [final].
    split; [|by eapply create_service_failed].
    eapply after_eq; [exact (after_trans _ _ _ _ _ H13 (after_call _ _ _ _))|].
    simpl. by rewrite app_nil_r. }
  set (s4 := withCall s3 k4 _ _) in Ho.
  pose proof (after_trans _ _ _ _ _ H13 (after_call s3 k4 _ None : after s3 _ s4)) as H14.
  destruct (ServicePorts (ServiceSpec_ newService)) as [|port0 ports].
  { unfold panic in Ho. subst o. eexists. cbn [final].
    split; [|by eapply create_no_port].
    eapply after_eq; [exact H14|]. simpl. by rewrite app_nil_r. }
  unfold addPodPortAnnotation in Ho. unfold bind at 1 in Ho.
  unfold Pods_Patch, request in Ho.
  destruct (podsPatch client _ _ _ (cluster s4)) as [[e|] k5] eqn:Hpatch; cbn [id] in Ho.
  - unfold_m_in Ho. subst o. eexists. cbn [final]. split.
    2:{ eapply create_patched; [done|]. intros e' [= <-]. cbn [output withOutput withCall].
        destruct H14 as (_ & [lines ->] & _). exists lines. by rewrite <- app_assoc. }
    eapply after_eq;
      [exact (after_trans _ _ _ _ _
                (after_trans _ _ _ _ _ H14 (after_call _ _ _ _)) (after_output _ _))|].
    simpl. rewrite <- !app_assoc. simpl. reflexivity.
  - unfold_m_in Ho. subst o. eexists. cbn [final]. split.
    2:{ by eapply create_patched. }
    eapply after_eq; [exact (after_trans _ _ _ _ _ H14 (after_call _ _ _ _))|].
    simpl. rewrite <- !app_assoc. simpl. reflexivity.
Qed.

Lemma nodeLookups_only_NodesGet nodeName s lookups :
  nodeLookups nodeName s lookups →
  Forall (λ cr, isNodesGet cr.1 = true) lookups.
Proof.
  unfold nodeLookups. destruct (_ !! _); [intros -> | intros [r ->]]; by repeat constructor.
Qed.

(** C3.  When the pod already carries the annotation
    [dynamic-hostports.k8s/<port>] with a non-empty value, exposing that
    port returns no error and sends nothing to the cluster: the request
    trace and the cluster are unchanged (so no endpoints creation, no
    service creation and no patch), and so are both maps; only a log
    line is written. *)
Theorem createService_skips_annotated_port pod requestedPort value s :
  Annotations (PodMeta pod) !! (annotationPrefix +:+ "/" +:+ strconv.Itoa requestedPort)
    = Some value →
  value ≠ EmptyString →
  ∃ s', createService client pod requestedPort s = Ret None s'
        ∧ calls s' = calls s
        ∧ cluster s' = cluster s
        ∧ handledPods s' = handledPods s
        ∧ cachedExternalIPs s' = cachedExternalIPs s.
Proof.
  intros Hann Hvalue. unfold createService.
  destruct (String.eqb_spec
              (index (Annotations (PodMeta pod)) (podPortToAnnotation requestedPort))
              EmptyString) as [Hempty|_]; cbn [negb].
  - unfold index, podPortToAnnotation in Hempty. rewrite Hann in Hempty. done.
  - unfold_m. by eexists.
Qed.

(** C4.  In one [createService] call the endpoints creation is sent
    before the service creation: any service creation in the requests
    issued is preceded by an endpoints creation that returned no error.
    And when the endpoints creation returns an error, the call returns
    that very error and has issued neither a service creation nor a
    patch. *)
Theorem createService_endpoints_before_service pod requestedPort s :
  ∃ issued,
    calls (final (createService client pod requestedPort s)) = (calls s ++ issued)%list
    ∧ (∀ i c r,
         issued !! i = Some (c, r) → isServicesCreate c = true →
         ∃ j c', (j < i)%nat ∧ issued !! j = Some (c', None) ∧ isEndpointsCreate c' = true)
    ∧ (∀ c e,
         (c, Some e) ∈ issued → isEndpointsCreate c = true →
         (∃ s', createService client pod requestedPort s = Ret (Some e) s')
         ∧ Forall (λ cr, isServicesCreate cr.1 = false ∧ isPodsPatch cr.1 = false) issued).
Proof.
  destruct (createService_trace pod requestedPort s) as (issued & Hafter & Htrace).
  exists issued. split; [apply Hafter|].
  destruct Htrace as [s' ? ?|s' ep e|s' ep lookups svc e Hl|s' ep lookups svc Hl
                     |s' ep lookups svc dyn r Hl Hlog].
  - split; [by intros [|i] |]. by intros c e ?%elem_of_nil.
  - split.
    + intros [|[|i]] c r; [|done..]. by intros [= <- <-].
    + intros c e' Hin _. apply list_elem_of_singleton in Hin as [= -> ->].
      split; [by eexists|]. by repeat constructor.
  - apply nodeLookups_only_NodesGet in Hl. split.
    + intros [|i] c r; [by intros [= <- <-]|]. intros _ _.
      exists 0%nat, (EndpointsCreate (Namespace (PodMeta pod)) ep). split; [lia | done].
    + intros c e' Hin Hc. exfalso.
      apply elem_of_cons in Hin as [[=]|Hin].
      apply elem_of_app in Hin as [Hin|Hin].
      * rewrite Forall_forall in Hl. apply Hl in Hin. by destruct c.
      * apply list_elem_of_singleton in Hin as [= -> ->]. done.
  - apply nodeLookups_only_NodesGet in Hl. split.
    + intros [|i] c r; [by intros [= <- <-]|]. intros _ _.
      exists 0%nat, (EndpointsCreate (Namespace (PodMeta pod)) ep). split; [lia | done].
    + intros c e' Hin Hc. exfalso.
      apply elem_of_cons in Hin as [[=]|Hin].
      apply elem_of_app in Hin as [Hin|Hin].
      * rewrite Forall_forall in Hl. apply Hl in Hin. by destruct c.
      * apply list_elem_of_singleton in Hin as [= -> ->].
  - apply nodeLookups_only_NodesGet in Hl. split.
    + intros [|i] c r'; [by intros [= <- <-]|]. intros _ _.
      exists 0%nat, (EndpointsCreate (Namespace (PodMeta pod)) ep). split; [lia | done].
    + intros c e' Hin Hc. exfalso.
      apply elem_of_cons in Hin as [[=]|Hin].
      apply elem_of_app in Hin as [Hin|Hin].
      * rewrite Forall_forall in Hl. apply Hl in Hin. by destruct c.
      * apply elem_of_cons in Hin as [[=]|Hin].
        apply list_elem_of_singleton in Hin as [= -> _]. done.
Qed.

(** C8.  When the annotation patch of a [createService] call comes back
    with an error, the endpoints object and the service were created
    before it (both creations are in the trace, without error), the call
    returns the patch error after writing it to stderr, and the trace of
    the call holds no deletion: nothing that was created is taken back. *)
Theorem createService_patch_failure_keeps_objects pod requestedPort s :
  ∃ issued,
    calls (final (createService client pod requestedPort s)) = (calls s ++ issued)%list
    ∧ Forall (λ cr, isServicesDelete cr.1 = false) issued
    ∧ (∀ c e,
         (c, Some e) ∈ issued → isPodsPatch c = true →
         (∃ s', createService client pod requestedPort s = Ret (Some e) s')
         ∧ (∃ lines dynamicPort,
              output (final (createService client pod requestedPort s))
              = (output s ++ lines ++ [patchFailedLine pod requestedPort dynamicPort e])%list)
         ∧ (∃ c1 between c2,
              issued = ((c1, None) :: between ++ [(c2, None); (c, Some e)])%list
              ∧ isEndpointsCreate c1 = true ∧ isServicesCreate c2 = true)).
Proof.
  destruct (createService_trace pod requestedPort s) as (issued & Hafter & Htrace).
  exists issued. split; [apply Hafter|].
  destruct Htrace as [s' ? ?|s' ep e|s' ep lookups svc e Hl|s' ep lookups svc Hl
                     |s' ep lookups svc dyn r Hl Hlog];
    try (pose proof (nodeLookups_only_NodesGet _ _ _ Hl) as Hget;
         assert (Hnodel : Forall (λ cr : Call * option error, isServicesDelete cr.1 = false)
                            lookups)
           by (eapply Forall_impl; [exact Hget|]; by intros [[] ?]));
    (split; [repeat first [apply Forall_cons; split; [done|]
                          | apply Forall_app; split; [done|]
                          | apply Forall_nil_2] |]).
  - by intros c e ?%elem_of_nil.
  - intros c e' Hin Hc. apply list_elem_of_singleton in Hin as [= -> ->]. done.
  - intros c e' Hin Hc. exfalso.
    apply elem_of_cons in Hin as [[=]|Hin].
    apply elem_of_app in Hin as [Hin|Hin].
    + rewrite Forall_forall in Hget. apply Hget in Hin. by destruct c.
    + apply list_elem_of_singleton in Hin as [= -> ->]. done.
  - intros c e' Hin Hc. exfalso.
    apply elem_of_cons in Hin as [[=]|Hin].
    apply elem_of_app in Hin as [Hin|Hin].
    + rewrite Forall_forall in Hget. apply Hget in Hin. by destruct c.
    + apply list_elem_of_singleton in Hin as [=].
  - intros c e' Hin Hc.
    apply elem_of_cons in Hin as [[=]|Hin].
    apply elem_of_app in Hin as [Hin|Hin].
    { rewrite Forall_forall in Hget. apply Hget in Hin. by destruct c. }
    apply elem_of_cons in Hin as [[=]|Hin].
    apply list_elem_of_singleton in Hin as [= -> <-].
    split; [by eexists|]. split.
    + destruct (Hlog e' eq_refl) as [lines Hout]. by exists lines, dyn.
    + by eexists _, _, _.
Qed.

(** *** The per-port loops *)

Lemma createServicesLoop_after pod requestedPorts : ∀ s,
  ∃ issued, after s issued (final (createServicesLoop client pod requestedPorts s)).
Proof.
  induction requestedPorts as [|port rest IH]; intros s.
  - exists []. apply after_refl.
  - cbn [createServicesLoop]. unfold bind.
    destruct (createService_trace pod port s) as (issued & Hafter & _).
    destruct (createService client pod port s) as [[e|] s1|v s1]; cbn [final] in *.
    + by exists issued.
    + destruct (IH s1) as (issued' & Hafter').
      exists (issued ++ issued')%list. by eapply after_trans.
    + by exists issued.
Qed.

Lemma deletePodServicesLoop_run pod requestedPorts : ∀ s,
  ∃ r s',
    deletePodServicesLoop client pod requestedPorts s = Ret r s'
    ∧ match r with
      | None =>
          after s (map (λ p, (deletionFor pod p, None)) requestedPorts) s'
      | Some e =>
          ∃ done p rest,
            requestedPorts = (done ++ p :: rest)%list
            ∧ after s (map (λ p, (deletionFor pod p, None)) done
                         ++ [(deletionFor pod p, Some e)]) s'
      end.
Proof.
  induction requestedPorts as [|port rest IH]; intros s.
  - exists None, s. split; [done | apply after_refl].
  - cbn [deletePodServicesLoop]. unfold bind at 1. unfold Printf at 1.
    unfold bind at 1. unfold deleteService, Services_Delete, request.
    set (s0 := withOutput s _).
    destruct (servicesDelete client _ _ (cluster s0)) as [[e|] k1]; cbn [id].
    + exists (Some e). eexists. split; [done|]. exists [], port, rest. split; [done|].
      eapply (after_trans _ _ _ [] [_]); [apply after_output | apply after_call].
    + set (s1 := withCall s0 k1 _ _).
      assert (H1 : after s [(deletionFor pod port, None)] s1)
        by (eapply (after_trans _ _ _ [] [_]); [apply after_output | apply after_call]).
      destruct (IH s1) as (r & s' & -> & Hrun). exists r, s'. split; [done|].
      destruct r as [e|].
      * destruct Hrun as (done & p & rest' & -> & Hafter).
        exists (port :: done), p, rest'. split; [done|].
        by apply (after_trans _ _ _ [_] _ H1).
      * by apply (after_trans _ _ _ [_] _ H1).
Qed.

(** *** One event *)

Lemma handlePodEvent_deleted pod s :
  handlePodEvent client watch.Deleted pod s
  = match splitHostportStrings (index (Labels (PodMeta pod)) labelKey) with
    | (_, Some e) =>
        Ret (Some e) (withHandledPods s (delete (namespacedPodName pod) (handledPods s)))
    | (requestedPorts, None) =>
        deletePodServicesLoop client pod requestedPorts
          (withHandledPods s (delete (namespacedPodName pod) (handledPods s)))
    end.
Proof.
  unfold handlePodEvent. cbn [String.eqb watch.Deleted Ascii.eqb Bool.eqb andb].
  unfold bind at 1. unfold deleteHandledPod at 1. unfold bind, deletePodServices.
  destruct (splitHostportStrings _) as [ports [e|]]; [done|].
  by destruct (deletePodServicesLoop _ _ _ _) as [[e|] s'|v s'].
Qed.

Lemma handlePodEvent_guarded eventType pod s :
  eventType ≠ watch.Deleted →
  handledPods s !! namespacedPodName pod = Some true
  ∨ PodIP (Status pod) = EmptyString
  ∨ Phase (Status pod) ≠ PodRunning →
  ∃ line, handlePodEvent client eventType pod s = Ret None (withOutput s line).
Proof.
  intros Het%String.eqb_neq Hguard. unfold handlePodEvent. rewrite Het.
  unfold bind at 1. unfold getHandledPods at 1.
  destruct (default false (handledPods s !! namespacedPodName pod)) eqn:Hh;
    [by eexists|].
  destruct (String.eqb_spec (PodIP (Status pod)) EmptyString) as [Hip|Hip];
    [by eexists|].
  destruct (String.eqb_spec (Phase (Status pod)) PodRunning) as [Hphase|Hphase];
    [|by eexists].
  destruct Hguard as [Hhandled|[?|?]]; [|done..].
  by rewrite Hhandled in Hh.
Qed.

Lemma handlePodEvent_unguarded eventType pod s :
  eventType ≠ watch.Deleted →
  handledPods s !! namespacedPodName pod ≠ Some true →
  PodIP (Status pod) ≠ EmptyString →
  Phase (Status pod) = PodRunning →
  handlePodEvent client eventType pod s
  = match splitHostportStrings (index (Labels (PodMeta pod)) labelKey) with
    | (_, Some e) => Ret (Some e) s
    | (requestedPorts, None) =>
        createServicesLoop client pod requestedPorts
          (withHandledPods s (<[namespacedPodName pod := true]> (handledPods s)))
    end.
Proof.
  intros Het%String.eqb_neq Hh Hip%String.eqb_neq Hphase%String.eqb_eq.
  unfold handlePodEvent. rewrite Het.
  unfold bind at 1. unfold getHandledPods at 1.
  replace (default false (handledPods s !! namespacedPodName pod)) with false
    by (by destruct (handledPods s !! namespacedPodName pod) as [[]|]).
  rewrite Hip, Hphase. cbn [negb].
  by destruct (splitHostportStrings _) as [ports [e|]].
Qed.

Lemma handlePodEvent_keeps_handled key eventType pod s :
  handledPods s !! key = Some true →
  ¬ (eventType = watch.Deleted ∧ namespacedPodName pod = key) →
  handledPods (final (handlePodEvent client eventType pod s)) !! key = Some true.
Proof.
  intros Hkey Hkeeps.
  destruct (decide (eventType = watch.Deleted)) as [->|Het].
  - assert (Hne : namespacedPodName pod ≠ key) by (intros ?; by apply Hkeeps).
    rewrite handlePodEvent_deleted.
    destruct (splitHostportStrings _) as [ports [e|]]; cbn [final handledPods withHandledPods].
    { by rewrite lookup_delete_ne. }
    destruct (deletePodServicesLoop_run pod ports
                (withHandledPods s (delete (namespacedPodName pod) (handledPods s))))
      as (r & s' & -> & Hrun). cbn [final].
    assert (handledPods s' = delete (namespacedPodName pod) (handledPods s)) as ->.
    { destruct r; [destruct Hrun as (? & ? & ? & _ & Hafter)|]; apply Hrun || apply Hafter. }
    by rewrite lookup_delete_ne.
  - destruct (decide (handledPods s !! namespacedPodName pod = Some true
                      ∨ PodIP (Status pod) = EmptyString
                      ∨ Phase (Status pod) ≠ PodRunning)) as [Hguard|Hfree].
    + destruct (handlePodEvent_guarded eventType pod s Het Hguard) as [line ->]. done.
    + rewrite handlePodEvent_unguarded; [|done|tauto|tauto|].
      2:{ destruct (decide (Phase (Status pod) = PodRunning)); tauto. }
      destruct (splitHostportStrings _) as [ports [e|]]; [done|].
      destruct (createServicesLoop_after pod ports
                  (withHandledPods s (<[namespacedPodName pod := true]> (handledPods s))))
        as (issued & _ & _ & -> & _).
      cbn [handledPods withHandledPods].
      destruct (decide (namespacedPodName pod = key)) as [->|Hne];
        [by rewrite lookup_insert_eq | by rewrite lookup_insert_ne].
Qed.

Lemma podEventLoop_keeps_handled key events : ∀ s,
  Forall (keepsHandled key) events →
  handledPods s !! key = Some true →
  handledPods (final (podEventLoop client events s)) !! key = Some true.
Proof.
  induction events as [|event rest IH]; intros s Hall Hkey; [done|].
  apply Forall_cons in Hall as [Hevent Hall].
  cbn [podEventLoop]. destruct (watch.Object_ event) as [pod|] eqn:Hobj; [|done].
  unfold bind at 1.
  pose proof (handlePodEvent_keeps_handled key (watch.Type_ event) pod s Hkey) as Hstep.
  destruct (handlePodEvent client (watch.Type_ event) pod s) as [err s1|v s1];
    cbn [final] in *.
  - unfold bind at 1.
    assert (Hs1 : handledPods s1 !! key = Some true).
    { apply Hstep. intros [Hdel Hname]. apply Hevent. split; [done|]. by exists pod. }
    destruct err as [e|]; unfold Printf, ret; by apply IH.
  - apply Hstep. intros [Hdel Hname]. apply Hevent. split; [done|]. by exists pod.
Qed.

(** C1.  An Added or Modified event (any event that is not a deletion).
    If the pod is already in [handledPods], or has no IP, or is not
    Running, the event returns no error and changes nothing but the log:
    no request is sent, the cluster and both maps are as before.
    Otherwise the event is decided by the label: if it does not parse,
    nothing is attempted; if it parses, the pod is entered in
    [handledPods] first and the per-port loop runs from the state that
    already holds the mark, which no creation removes.  So whatever the
    first pass returned (an error of some port included), after any
    further events that do not delete the pod, the same event delivered
    again sends no request at all; and once the label has parsed this
    holds for every Added or Modified event for the same namespaced
    name, which is then a no-op. *)
Theorem handlePodEvent_marks_before_creating eventType pod s :
  eventType ≠ watch.Deleted →
  (handledPods s !! namespacedPodName pod = Some true
   ∨ PodIP (Status pod) = EmptyString
   ∨ Phase (Status pod) ≠ PodRunning →
   ∃ s', handlePodEvent client eventType pod s = Ret None s' ∧ sameButOutput s s')
  ∧ (handledPods s !! namespacedPodName pod ≠ Some true →
     PodIP (Status pod) ≠ EmptyString →
     Phase (Status pod) = PodRunning →
     handlePodEvent client eventType pod s
     = match splitHostportStrings (index (Labels (PodMeta pod)) labelKey) with
       | (_, Some e) => Ret (Some e) s
       | (requestedPorts, None) =>
           createServicesLoop client pod requestedPorts
             (withHandledPods s (<[namespacedPodName pod := true]> (handledPods s)))
       end
     ∧ (∀ r s1 between s2 eventType',
          handlePodEvent client eventType pod s = Ret r s1 →
          Forall (keepsHandled (namespacedPodName pod)) between →
          podEventLoop client between s1 = Ret tt s2 →
          eventType' ≠ watch.Deleted →
          ∃ r' s3, handlePodEvent client eventType' pod s2 = Ret r' s3
                   ∧ calls s3 = calls s2)
     ∧ ∀ requestedPorts,
         splitHostportStrings (index (Labels (PodMeta pod)) labelKey)
         = (requestedPorts, None) →
         handledPods (final (handlePodEvent client eventType pod s))
         = <[namespacedPodName pod := true]> (handledPods s)
         ∧ ∀ r s1 between s2 eventType' pod',
             handlePodEvent client eventType pod s = Ret r s1 →
             Forall (keepsHandled (namespacedPodName pod)) between →
             podEventLoop client between s1 = Ret tt s2 →
             eventType' ≠ watch.Deleted →
             namespacedPodName pod' = namespacedPodName pod →
             ∃ s3, handlePodEvent client eventType' pod' s2 = Ret None s3
                   ∧ calls s3 = calls s2 ∧ sameButOutput s2 s3).
Proof.
  intros Het. split.
  - intros Hguard. destruct (handlePodEvent_guarded eventType pod s Het Hguard) as [line ->].
    eexists. split; [done | apply sameButOutput_output].
  - intros Hh Hip Hphase.
    split; [by apply handlePodEvent_unguarded|].
    assert (Hparsed : ∀ requestedPorts,
         splitHostportStrings (index (Labels (PodMeta pod)) labelKey)
         = (requestedPorts, None) →
         handledPods (final (handlePodEvent client eventType pod s))
         = <[namespacedPodName pod := true]> (handledPods s)
         ∧ ∀ r s1 between s2 eventType' pod',
             handlePodEvent client eventType pod s = Ret r s1 →
             Forall (keepsHandled (namespacedPodName pod)) between →
             podEventLoop client between s1 = Ret tt s2 →
             eventType' ≠ watch.Deleted →
             namespacedPodName pod' = namespacedPodName pod →
             ∃ s3, handlePodEvent client eventType' pod' s2 = Ret None s3
                   ∧ calls s3 = calls s2 ∧ sameButOutput s2 s3).
    { intros requestedPorts Hparse.
      rewrite handlePodEvent_unguarded by done. rewrite Hparse.
      set (marked := withHandledPods s _).
      destruct (createServicesLoop_after pod requestedPorts marked)
        as (issued & _ & _ & Hhandled & _).
      split; [exact Hhandled|].
      intros r s1 between s2 eventType' pod' Hrun Hbetween Hloop Het' Hname.
      assert (Hs1 : handledPods s1 !! namespacedPodName pod = Some true).
      { rewrite Hrun in Hhandled. cbn [final] in Hhandled. rewrite Hhandled.
        subst marked. cbn [handledPods withHandledPods]. apply lookup_insert_eq. }
      pose proof (podEventLoop_keeps_handled _ between s1 Hbetween Hs1) as Hs2.
      rewrite Hloop in Hs2. cbn [final] in Hs2.
      destruct (handlePodEvent_guarded eventType' pod' s2 Het') as [line ->].
      { left. by rewrite Hname. }
      eexists. split; [done|]. split; [done | apply sameButOutput_output]. }
    split; [|exact Hparsed].
    intros r s1 between s2 eventType' Hrun Hbetween Hloop Het'.
    destruct (splitHostportStrings (index (Labels (PodMeta pod)) labelKey))
      as [requestedPorts [e|]] eqn:Hparse.
    + destruct (decide (handledPods s2 !! namespacedPodName pod = Some true)) as [Hs2|Hs2].
      * destruct (handlePodEvent_guarded eventType' pod s2 Het') as [line ->];
          [by left | by eexists _, _].
      * rewrite handlePodEvent_unguarded by done. rewrite Hparse. by eexists _, _.
    + destruct (Hparsed requestedPorts eq_refl) as [_ Hagain].
      destruct (Hagain r s1 between s2 eventType' pod Hrun Hbetween Hloop Het' eq_refl)
        as (s3 & -> & Hcalls & _).
      by eexists _, _.
Qed.

(** C5.  A Deleted event for a pod whose label parses to the ports
    [p1..pn].  The namespaced name is removed from [handledPods].  The
    requests sent are deletions of the services [<pod name>-<pi>] in the
    pod's namespace, in the order of the list: all n of them when none
    fails, and then no error is returned; otherwise those up to and
    including the first one that fails, whose error is returned, and none
    for the ports after it. *)
Theorem handlePodEvent_deleted_retracts pod requestedPorts s :
  splitHostportStrings (index (Labels (PodMeta pod)) labelKey) = (requestedPorts, None) →
  let deletion p :=
    ServicesDelete (Namespace (PodMeta pod))
      (Name (PodMeta pod) +:+ "-" +:+ strconv.Itoa p) in
  ∃ r s',
    handlePodEvent client watch.Deleted pod s = Ret r s'
    ∧ handledPods s' = delete (namespacedPodName pod) (handledPods s)
    ∧ match r with
      | None =>
          calls s' = (calls s ++ map (λ p, (deletion p, None)) requestedPorts)%list
      | Some e =>
          ∃ done p rest,
            requestedPorts = (done ++ p :: rest)%list
            ∧ calls s' = (calls s ++ map (λ p, (deletion p, None)) done
                            ++ [(deletion p, Some e)])%list
      end.
Proof.
  intros Hparse deletion. rewrite handlePodEvent_deleted, Hparse.
  destruct (deletePodServicesLoop_run pod requestedPorts
              (withHandledPods s (delete (namespacedPodName pod) (handledPods s))))
    as (r & s' & -> & Hrun).
  exists r, s'. split; [done|]. destruct r as [e|].
  - destruct Hrun as (done & p & rest & -> & Hcalls & _ & Hhandled & _).
    split; [exact Hhandled|]. by exists done, p, rest.
  - destruct Hrun as (Hcalls & _ & Hhandled & _). by split.
Qed.

(** C9, as amended.  An Added or Modified event for a pod that is not
    yet in [handledPods], has an IP and is Running, but whose label does
    not parse: the event returns the parse error and leaves the state
    exactly as it was, so no request is sent and the pod is not entered
    in [handledPods].  A later event for the same namespaced name,
    delivered in that state, is therefore decided by parsing its label
    again: the parse error if the label is still malformed, and otherwise
    the mark followed by the per-port loop. *)
Theorem handlePodEvent_malformed_label_not_handled eventType pod e s :
  eventType ≠ watch.Deleted →
  handledPods s !! namespacedPodName pod ≠ Some true →
  PodIP (Status pod) ≠ EmptyString →
  Phase (Status pod) = PodRunning →
  splitHostportStrings (index (Labels (PodMeta pod)) labelKey) = ([], Some e) →
  handlePodEvent client eventType pod s = Ret (Some e) s
  ∧ ∀ eventType' pod',
      eventType' ≠ watch.Deleted →
      namespacedPodName pod' = namespacedPodName pod →
      PodIP (Status pod') ≠ EmptyString →
      Phase (Status pod') = PodRunning →
      handlePodEvent client eventType' pod' s
      = match splitHostportStrings (index (Labels (PodMeta pod')) labelKey) with
        | (_, Some e') => Ret (Some e') s
        | (requestedPorts, None) =>
            createServicesLoop client pod' requestedPorts
              (withHandledPods s (<[namespacedPodName pod' := true]> (handledPods s)))
        end.
Proof.
  intros Het Hh Hip Hphase Hparse. split.
  - rewrite handlePodEvent_unguarded by done. by rewrite Hparse.
  - intros eventType' pod' Het' Hname Hip' Hphase'.
    apply handlePodEvent_unguarded; try done. by rewrite Hname.
Qed.

(** *** The address cache *)

Lemma handlePodEvent_keeps_cache node ip eventType pod s :
  cachedExternalIPs s !! node = Some ip →
  cachedExternalIPs (final (handlePodEvent client eventType pod s)) !! node = Some ip.
Proof.
  intros Hnode.
  destruct (decide (eventType = watch.Deleted)) as [->|Het].
  - rewrite handlePodEvent_deleted.
    destruct (splitHostportStrings _) as [ports [e|]]; [done|].
    destruct (deletePodServicesLoop_run pod ports
                (withHandledPods s (delete (namespacedPodName pod) (handledPods s))))
      as (r & s' & -> & Hrun). cbn [final].
    destruct r; [destruct Hrun as (? & ? & ? & _ & Hrun)|];
      destruct Hrun as (_ & _ & _ & Hkept); by apply Hkept.
  - destruct (decide (handledPods s !! namespacedPodName pod = Some true
                      ∨ PodIP (Status pod) = EmptyString
                      ∨ Phase (Status pod) ≠ PodRunning)) as [Hguard|Hfree].
    + destruct (handlePodEvent_guarded eventType pod s Het Hguard) as [line ->]. done.
    + rewrite handlePodEvent_unguarded; [|done|tauto|tauto|].
      2:{ destruct (decide (Phase (Status pod) = PodRunning)); tauto. }
      destruct (splitHostportStrings _) as [ports [e|]]; [done|].
      destruct (createServicesLoop_after pod ports
                  (withHandledPods s (<[namespacedPodName pod := true]> (handledPods s))))
        as (issued & _ & _ & _ & Hkept).
      by apply Hkept.
Qed.

Lemma podEventLoop_keeps_cache node ip events : ∀ s,
  cachedExternalIPs s !! node = Some ip →
  cachedExternalIPs (final (podEventLoop client events s)) !! node = Some ip.
Proof.
  induction events as [|event rest IH]; intros s Hnode; [done|].
  cbn [podEventLoop]. destruct (watch.Object_ event) as [pod|]; [|done].
  unfold bind at 1.
  pose proof (handlePodEvent_keeps_cache node ip (watch.Type_ event) pod s Hnode) as Hstep.
  destruct (handlePodEvent client (watch.Type_ event) pod s) as [err s1|v s1];
    cbn [final] in *; [|done].
  unfold bind at 1. destruct err as [e|]; unfold Printf, ret; by apply IH.
Qed.

(** C7.  The node address cache.  On a hit the cached address is
    returned and nothing is asked or changed.  On a miss the node is
    queried once; the address is stored only when the query succeeded
    and the node reports an external address, and that address is the
    result; when the query failed or no external address is reported the
    result is empty and the cache is left as it was, so the node is still
    unknown and the next lookup is a miss again.  An entry, once present,
    survives every later event, and a [createService] for a pod on a node
    with an entry sends no node query. *)
Theorem getOrFetchExternalNodeIp_remembers_found_addresses nodeName s :
  (∀ ip, cachedExternalIPs s !! nodeName = Some ip →
         getOrFetchExternalNodeIp client nodeName s = Ret ip s)
  ∧ (cachedExternalIPs s !! nodeName = None →
     ∃ node err k s',
       nodesGet client nodeName (cluster s) = ((node, err), k)
       ∧ getOrFetchExternalNodeIp client nodeName s
         = Ret (match err, externalAddress node with
                | None, Some a => a
                | _, _ => EmptyString
                end) s'
       ∧ calls s' = (calls s ++ [(NodesGet nodeName, err)])%list
       ∧ cachedExternalIPs s'
         = match err, externalAddress node with
           | None, Some a => <[nodeName := a]> (cachedExternalIPs s)
           | _, _ => cachedExternalIPs s
           end)
  ∧ (∀ ip, cachedExternalIPs s !! nodeName = Some ip →
       (∀ events,
          cachedExternalIPs (final (podEventLoop client events s)) !! nodeName = Some ip)
       ∧ (∀ pod requestedPort,
            NodeName (Spec pod) = nodeName →
            ∃ issued,
              calls (final (createService client pod requestedPort s))
              = (calls s ++ issued)%list
              ∧ Forall (λ cr, isNodesGet cr.1 = false) issued)).
Proof.
  split; [intros ip; apply getOrFetchExternalNodeIp_hit|]. split.
  - intros Hmiss.
    destruct (nodesGet client nodeName (cluster s)) as [[node err] k] eqn:Hget.
    destruct (getOrFetchExternalNodeIp_miss _ _ _ _ _ Hmiss Hget)
      as (s' & Hrun & _ & Hafter & Hcache).
    exists node, err, k, s'. split; [done|]. split; [done|]. split; [apply Hafter | done].
  - intros ip Hhit. split; [intros events; by apply podEventLoop_keeps_cache|].
    intros pod requestedPort <-.
    destruct (createService_trace pod requestedPort s) as (issued & Hafter & Htrace).
    exists issued. split; [apply Hafter|].
    destruct Htrace as [s' ? ?|s' ep e|s' ep lookups svc e Hl|s' ep lookups svc Hl
                       |s' ep lookups svc dyn r Hl Hlog];
      try (unfold nodeLookups in Hl; rewrite Hhit in Hl; subst lookups);
      by repeat constructor.
Qed.

(** *** The stale-service reaper *)

Lemma foundPod_spec pods forPod serviceNamespace :
  foundPod pods forPod serviceNamespace = true
  ↔ ∃ pod, pod ∈ pods ∧ Name (PodMeta pod) = forPod
           ∧ Namespace (PodMeta pod) = serviceNamespace.
Proof.
  induction pods as [|pod rest IH]; cbn [foundPod].
  - split; [done|]. by intros (? & ?%elem_of_nil & _).
  - destruct (String.eqb_spec (Name (PodMeta pod)) forPod) as [Hn|Hn];
      [destruct (String.eqb_spec (Namespace (PodMeta pod)) serviceNamespace) as [Hns|Hns]|];
      cbn [andb].
    + split; [|done]. intros _. exists pod. split; [apply list_elem_of_here | done].
    + rewrite IH. split.
      * intros (p & Hin & ?). exists p. split; [by apply list_elem_of_further | done].
      * intros (p & [->|Hin]%elem_of_cons & Hp); [by destruct Hp | by exists p].
    + rewrite IH. split.
      * intros (p & Hin & ?). exists p. split; [by apply list_elem_of_further | done].
      * intros (p & [->|Hin]%elem_of_cons & Hp); [by destruct Hp | by exists p].
Qed.


Lemma deleteStaleServicesLoop_run pods services : ∀ s,
  ∃ s' answers,
    deleteStaleServicesLoop client pods services s = Ret tt s'
    ∧ length answers = length (staleServices pods services)
    ∧ calls s'
      = (calls s ++ map reaperCall (zip (staleServices pods services) answers))%list
    ∧ output s'
      = (output s ++ flat_map reaperLines (zip (staleServices pods services) answers))%list.
Proof.
  unfold staleServices.
  induction services as [|service rest IH]; intros s.
  - exists s, []. cbn. by rewrite !app_nil_r.
  - cbn [deleteStaleServicesLoop List.filter]. fold (isStale pods service).
    unfold bind at 1.
    destruct (isStale pods service) eqn:Hstale; cbn [negb].
    + unfold bind at 1. unfold Printf at 1. unfold bind at 1.
      unfold deleteService, Services_Delete, request.
      set (s0 := withOutput s _).
      destruct (servicesDelete client _ _ (cluster s0)) as [answer k1]; cbn [id].
      set (s1 := withCall s0 k1 _ _).
      assert (∃ s2, (match answer with
                     | Some e => Printf Stderr "Failed to delete service %s" [AError e]
                     | None => ret tt
                     end) s1 = Ret tt s2
                    ∧ calls s2 = (calls s ++ [reaperCall (service, answer)])%list
                    ∧ output s2 = (output s ++ reaperLines (service, answer))%list)
        as (s2 & -> & Hcalls & Hout).
      { destruct answer as [e|]; unfold Printf, ret; eexists; (split; [done|]);
          cbn; by rewrite <- ?app_assoc. }
      destruct (IH s2) as (s' & answers & -> & Hlen & Hcalls' & Hout').
      exists s', (answer :: answers). split; [done|]. split; [by cbn; rewrite Hlen|].
      rewrite Hcalls', Hout', Hcalls, Hout. cbn [zip zip_with map flat_map].
      by rewrite <- !app_assoc.
    + unfold ret at 1. apply IH.
Qed.

Lemma deleteStaleServices_run namespace s pods podsErr k1 services servicesErr k2 :
  podsList client namespace labelKey (cluster s) = ((pods, podsErr), k1) →
  servicesList client namespace managedBySelector k1 = ((services, servicesErr), k2) →
  let listings := [(PodsList namespace labelKey, podsErr);
                   (ServicesList namespace managedBySelector, servicesErr)] in
  match servicesErr with
  | Some e =>
      ∃ s', deleteStaleServices client namespace s = Ret (Some e) s'
            ∧ calls s' = (calls s ++ listings)%list
  | None =>
      ∃ s' answers,
        deleteStaleServices client namespace s = Ret None s'
        ∧ length answers = length (staleServices pods services)
        ∧ calls s'
          = (calls s ++ listings
               ++ map reaperCall (zip (staleServices pods services) answers))%list
        ∧ output s'
          = (output s ++ flat_map reaperLines (zip (staleServices pods services) answers))%list
  end.
Proof.
  intros Hpods Hservices listings.
  assert (Hrun : deleteStaleServices client namespace s
                 = let s0 := withCall (withCall s k1 (PodsList namespace labelKey) podsErr)
                               k2 (ServicesList namespace managedBySelector) servicesErr in
                   match servicesErr with
                   | Some e => Ret (Some e) s0
                   | None =>
                       match deleteStaleServicesLoop client pods services s0 with
                       | Ret _ s' => Ret None s'
                       | Panic v s' => Panic v s'
                       end
                   end).
  { unfold deleteStaleServices.
    unfold bind at 1. unfold Pods_List, request. rewrite Hpods. cbn [fst snd].
    unfold bind at 1. unfold Services_List, request.
    change (managedByLabelKey +:+ "=" +:+ managedByLabelValue) with managedBySelector.
    cbn [cluster withCall]. rewrite Hservices. cbn [fst snd].
    by destruct servicesErr. }
  rewrite Hrun. cbv zeta. destruct servicesErr as [e|].
  - eexists. split; [done|]. cbn. by rewrite <- app_assoc.
  - match goal with
    | |- context [deleteStaleServicesLoop client pods services ?s0] =>
        destruct (deleteStaleServicesLoop_run pods services s0)
          as (s' & answers & -> & Hlen & Hcalls & Hout)
    end.
    exists s', answers. split; [done|]. split; [done|].
    rewrite Hcalls, Hout. cbn. by rewrite <- !app_assoc.
Qed.

Lemma reaperCall_requests stale : ∀ answers,
  length answers = length stale →
  (map reaperCall (zip stale answers)).*1 = map deletionOf stale.
Proof.
  induction stale as [|service rest IH]; intros [|answer answers] Hlen; try done.
  cbn. f_equal. apply IH. by injection Hlen.
Qed.


Lemma staleServices_nil services : staleServices [] services = services.
Proof.
  unfold staleServices. induction services as [|service rest IH]; [done|].
  cbn. by rewrite IH.
Qed.


(** C10.  The error of the pod listing is never looked at.  Whatever
    error the pod listing returned, the pass goes on to list the
    services; only that second listing's error ends the pass, and it is
    the one returned.  Otherwise the pass runs on the pods that came back
    with the first listing, and when that list is empty every listed
    service counts as stale and gets its deletion. *)
Theorem deleteStaleServices_ignores_pod_list_error
    namespace s pods podsErr k1 services servicesErr k2 :
  podsList client namespace labelKey (cluster s) = ((pods, podsErr), k1) →
  servicesList client namespace managedBySelector k1 = ((services, servicesErr), k2) →
  match servicesErr with
  | Some e =>
      ∃ s', deleteStaleServices client namespace s = Ret (Some e) s'
            ∧ calls s'
              = (calls s ++ [(PodsList namespace labelKey, podsErr);
                             (ServicesList namespace managedBySelector, Some e)])%list
  | None =>
      ∃ s' answers,
        deleteStaleServices client namespace s = Ret None s'
        ∧ length answers = length (staleServices pods services)
        ∧ calls s'
          = (calls s ++ [(PodsList namespace labelKey, podsErr);
                         (ServicesList namespace managedBySelector, None)]
               ++ map reaperCall (zip (staleServices pods services) answers))%list
        ∧ (pods = [] →
           staleServices pods services = services
           ∧ (map reaperCall (zip services answers)).*1 = map deletionOf services)
  end.
Proof.
  intros Hpods Hservices.
  pose proof (deleteStaleServices_run namespace s pods podsErr k1 services servicesErr k2
                Hpods Hservices) as Hrun.
  cbv zeta in Hrun. destruct servicesErr as [e|]; [exact Hrun|].
  destruct Hrun as (s' & answers & Hrun & Hlen & Hcalls & Hout).
  exists s', answers. split; [done|]. split; [done|]. split; [done|].
  intros ->.
  pose proof (staleServices_nil services) as Hall.
  split; [done|]. rewrite Hall in Hlen. by apply reaperCall_requests.
Qed.

End ControllerFacts.

(** ** The statements at concrete inputs *)

Section Scenarios.

Example added_event_exposes_both_ports :
  kinds (final (handlePodEvent scripted watch.Added webPod (initialState healthy)))
  = ["endpoints.create"; "nodes.get"; "services.create"; "pods.patch";
     "endpoints.create"; "services.create"; "pods.patch"].
Proof. vm_compute. reflexivity. Qed.

Example redelivery_sends_nothing :
  kinds (final (handlePodEvent scripted watch.Modified webPod
                  (final (handlePodEvent scripted watch.Added webPod (initialState healthy)))))
  = kinds (final (handlePodEvent scripted watch.Added webPod (initialState healthy))).
Proof. vm_compute. reflexivity. Qed.

Example deleted_event_retracts_both_ports :
  kinds (final (handlePodEvent scripted watch.Deleted webPod (initialState healthy)))
  = ["services.delete web-8080"; "services.delete web-8082"].
Proof. vm_compute. reflexivity. Qed.

Example reaper_deletes_the_orphan :
  kinds (final (deleteStaleServices scripted "default" (initialState healthy)))
  = ["pods.list"; "services.list"; "services.delete b-9090"].
Proof. vm_compute. reflexivity. Qed.

Example signed_token_is_numeric :
  splitHostportStrings "+8080" = ([8080], None).
Proof. reflexivity. Qed.

Example empty_label_is_rejected :
  splitHostportStrings EmptyString
  = ([], Some (NumError "Atoi" EmptyString strconv.ErrSyntax)).
Proof. reflexivity. Qed.

Example annotation_key : podPortToAnnotation 8080 = "dynamic-hostports.k8s/8080".
Proof. reflexivity. Qed.

Lemma splitHostportStrings_all_or_nothing_witness :
  splitHostportStrings "8080.8082" = ([8080; 8082], None)
  ∧ splitHostportStrings (strings.Join ["8080"; "8082"] ".") = ([8080; 8082], None)
  ∧ ∃ e, splitHostportStrings "8080.http" = ([], Some e).
Proof.
  destruct splitHostportStrings_all_or_nothing as (Hsplit & Hjoin & Hreject).
  split; [|split].
  - apply (Hsplit "8080.8082"). vm_compute. repeat constructor.
  - apply (Hjoin ["8080"; "8082"]); [discriminate|]. vm_compute. repeat constructor.
  - apply (Hreject "8080.http"). apply Exists_cons_tl, Exists_cons_hd. by left.
Defined.

Lemma createService_skips_annotated_port_witness :
  ∃ s', createService scripted annotatedPod 8080 (initialState healthy) = Ret None s'
        ∧ calls s' = calls (initialState healthy)
        ∧ cluster s' = cluster (initialState healthy)
        ∧ handledPods s' = handledPods (initialState healthy)
        ∧ cachedExternalIPs s' = cachedExternalIPs (initialState healthy).
Proof.
  apply (createService_skips_annotated_port scripted annotatedPod 8080 "31000").
  - vm_compute. reflexivity.
  - discriminate.
Defined.

Lemma handlePodEvent_marks_before_creating_witness :
  (∃ s', handlePodEvent scripted watch.Added pendingPod (initialState healthy) = Ret None s'
         ∧ sameButOutput (initialState healthy) s')
  ∧ ∃ e s1 s3,
      handlePodEvent scripted watch.Added webPod (initialState (withPatchError healthy conflict))
      = Ret (Some e) s1
      ∧ handlePodEvent scripted watch.Modified webPod s1 = Ret None s3
      ∧ calls s3 = calls s1.
Proof.
  split.
  - apply (handlePodEvent_marks_before_creating scripted watch.Added pendingPod
             (initialState healthy)); [discriminate | right; left; reflexivity].
  - destruct (handlePodEvent_marks_before_creating scripted watch.Added webPod
                (initialState (withPatchError healthy conflict))) as [_ Hfresh];
      [discriminate|].
    destruct Hfresh as (_ & _ & Hparsed);
      [vm_compute; discriminate | discriminate | reflexivity|].
    destruct (Hparsed [8080; 8082] eq_refl) as [_ Hredelivered].
    assert (Hfirst : handlePodEvent scripted watch.Added webPod
                       (initialState (withPatchError healthy conflict))
                     = Ret (Some conflict)
                         (final (handlePodEvent scripted watch.Added webPod
                                   (initialState (withPatchError healthy conflict)))))
      by (vm_compute; reflexivity).
    edestruct Hredelivered
      with (between := @nil watch.Event) (eventType' := watch.Modified) (pod' := webPod)
      as (s3 & Hrun & Hcalls & _);
      [exact Hfirst | constructor | reflexivity | discriminate | reflexivity|].
    eexists conflict, _, s3. split; [exact Hfirst|]. split; [exact Hrun | exact Hcalls].
Defined.

Lemma createService_endpoints_before_service_witness :
  ∃ s', createService scripted webPod 8080
          (initialState (withEndpointsError healthy conflict))
        = Ret (Some conflict) s'.
Proof.
  destruct (createService_endpoints_before_service scripted webPod 8080
              (initialState (withEndpointsError healthy conflict)))
    as (issued & Hcalls & _ & Habort).
  vm_compute in Hcalls. subst issued.
  edestruct Habort as [Hreturned _]; [apply list_elem_of_here | reflexivity|].
  exact Hreturned.
Defined.

Lemma createService_patch_failure_keeps_objects_witness :
  ∃ s', createService scripted webPod 8080 (initialState (withPatchError healthy conflict))
        = Ret (Some conflict) s'.
Proof.
  destruct (createService_patch_failure_keeps_objects scripted webPod 8080
              (initialState (withPatchError healthy conflict)))
    as (issued & Hcalls & _ & Hpatch).
  vm_compute in Hcalls. subst issued.
  edestruct Hpatch as [Hreturned _];
    [do 3 apply list_elem_of_further; apply list_elem_of_here | reflexivity|].
  exact Hreturned.
Defined.

Lemma handlePodEvent_deleted_retracts_witness :
  ∃ r s', handlePodEvent scripted watch.Deleted webPod exposedState = Ret r s'
          ∧ handledPods s' = delete (namespacedPodName webPod) (handledPods exposedState).
Proof.
  destruct (handlePodEvent_deleted_retracts scripted webPod [8080; 8082] exposedState eq_refl)
    as (r & s' & Hrun & Hhandled & _).
  by exists r, s'.
Defined.


Lemma deleteStaleServices_ignores_pod_list_error_witness :
  ∃ s' answers,
    deleteStaleServices scripted "default"
      (initialState (withPodsListError healthy conflict)) = Ret None s'
    ∧ (map reaperCall (zip (listedServices healthy) answers)).*1
      = [ServicesDelete "default" "a-8080"; ServicesDelete "default" "b-9090"].
Proof.
  pose proof (deleteStaleServices_ignores_pod_list_error scripted "default"
                (initialState (withPodsListError healthy conflict))
                [] (Some conflict) (withPodsListError healthy conflict)
                (listedServices healthy) None (withPodsListError healthy conflict)
                eq_refl eq_refl) as (s' & answers & Hrun & _ & _ & Hall).
  destruct (Hall eq_refl) as [_ Hrequests].
  exists s', answers. split; [exact Hrun | exact Hrequests].
Defined.

Lemma getOrFetchExternalNodeIp_remembers_found_addresses_witness :
  (∃ s', getOrFetchExternalNodeIp scripted "node-1" (initialState healthy)
         = Ret "203.0.113.4" s'
         ∧ cachedExternalIPs s' !! "node-1" = Some "203.0.113.4")
  ∧ getOrFetchExternalNodeIp scripted "node-1" exposedState = Ret "203.0.113.4" exposedState.
Proof.
  split.
  - destruct (getOrFetchExternalNodeIp_remembers_found_addresses scripted "node-1"
                (initialState healthy)) as (_ & Hmiss & _).
    destruct Hmiss as (node & err & k & s' & Hget & Hrun & _ & Hcache); [reflexivity|].
    injection Hget as <- <- <-.
    exists s'. split; [exact Hrun|]. rewrite Hcache. reflexivity.
  - apply (getOrFetchExternalNodeIp_remembers_found_addresses scripted "node-1" exposedState).
    vm_compute. reflexivity.
Defined.

Lemma handlePodEvent_malformed_label_not_handled_witness :
  handlePodEvent scripted watch.Added mislabelledPod (initialState healthy)
  = Ret (Some (NumError "Atoi" "http" strconv.ErrSyntax)) (initialState healthy).
Proof.
  refine (proj1 (handlePodEvent_malformed_label_not_handled scripted watch.Added
                   mislabelledPod (NumError "Atoi" "http" strconv.ErrSyntax)
                   (initialState healthy) _ _ _ _ _));
    [discriminate | vm_compute; discriminate | discriminate | reflexivity | reflexivity].
Defined.

(** C1 as first stated fails for a pod whose label does not parse: [web]
    is not in [handledPods], has an IP and is Running, so none of the
    three guards applies, yet its Added event returns the parse error and
    leaves [handledPods] without the pod.  Once the label is repaired, the
    Modified event for the same namespaced name is not a no-op: it sends
    seven requests. *)
Lemma handlePodEvent_marks_before_creating_counterexample :
  handledPods (initialState healthy) !! namespacedPodName mislabelledPod ≠ Some true
  ∧ PodIP (Status mislabelledPod) ≠ EmptyString
  ∧ Phase (Status mislabelledPod) = PodRunning
  ∧ namespacedPodName webPod = namespacedPodName mislabelledPod
  ∧ ∃ e s1,
      handlePodEvent scripted watch.Added mislabelledPod (initialState healthy)
      = Ret (Some e) s1
      ∧ handledPods s1 !! namespacedPodName mislabelledPod = None
      ∧ calls s1 = []
      ∧ kinds (final (handlePodEvent scripted watch.Modified webPod s1))
        = ["endpoints.create"; "nodes.get"; "services.create"; "pods.patch";
           "endpoints.create"; "services.create"; "pods.patch"].
Proof.
  split; [vm_compute; discriminate|]. split; [discriminate|]. split; [reflexivity|].
  split; [reflexivity|].
  exists (NumError "Atoi" "http" strconv.ErrSyntax), (initialState healthy).
  split; [vm_compute; reflexivity|]. split; [vm_compute; reflexivity|].
  split; [reflexivity | vm_compute; reflexivity].
Qed.

(** C9 as first stated fails for a pod that is already in [handledPods]:
    [web] has been exposed, its label is then edited into a malformed one,
    and the Modified event that follows has an IP, is Running and carries
    a label that does not parse, yet it returns no error. *)
Lemma handlePodEvent_malformed_label_counterexample :
  PodIP (Status mislabelledPod) ≠ EmptyString
  ∧ Phase (Status mislabelledPod) = PodRunning
  ∧ (∃ e, splitHostportStrings (index (Labels (PodMeta mislabelledPod)) labelKey)
          = ([], Some e))
  ∧ handledPods exposedState !! namespacedPodName mislabelledPod = Some true
  ∧ (∃ s', handlePodEvent scripted watch.Modified mislabelledPod exposedState = Ret None s')
  ∧ ¬ (∃ e s', handlePodEvent scripted watch.Modified mislabelledPod exposedState
               = Ret (Some e) s').
Proof.
  split; [discriminate|]. split; [reflexivity|]. split; [by eexists|].
  split; [vm_compute; reflexivity|].
  destruct (handlePodEvent_guarded scripted watch.Modified mislabelledPod exposedState)
    as [line Hrun]; [discriminate | left; vm_compute; reflexivity|].
  split; [by eexists|]. intros (e & s' & Herr). rewrite Hrun in Herr. discriminate.
Qed.

End Scenarios.

(** ** Further properties: printing and parsing ports *)

Section Printing.

Import strconv.

Lemma string_of_uint_allDigits d : allDigits (NilEmpty.string_of_uint d) = true.
Proof. induction d; cbn [NilEmpty.string_of_uint allDigits]; by rewrite ?IHd. Qed.

Lemma positional_of_uint_acc d : ∀ acc,
  Z.pos (Pos.of_uint_acc d acc)
  = Z.pos acc * 10 ^ Z.of_nat (String.length (NilEmpty.string_of_uint d))
    + positional (NilEmpty.string_of_uint d).
Proof.
  induction d; intros acc;
    cbn [Pos.of_uint_acc NilEmpty.string_of_uint String.length positional].
  1: { change (10 ^ Z.of_nat 0) with 1. lia. }
  all: rewrite IHd, Nat2Z.inj_succ, Z.pow_succ_r by lia.
  all: rewrite ?Pos2Z.inj_add, Pos2Z.inj_mul.
  all: match goal with
       | |- context [digitVal ?c] =>
           let v := eval vm_compute in (digitVal c) in change (digitVal c) with v
       end.
  all: ring.
Qed.

Lemma positional_of_uint d :
  positional (NilEmpty.string_of_uint d) = Z.of_N (Pos.of_uint d).
Proof.
  induction d; cbn [Pos.of_uint NilEmpty.string_of_uint positional]; [done|..].
  1: { rewrite IHd. change (digitVal "0") with 0. lia. }
  all: rewrite N2Z.inj_pos, positional_of_uint_acc.
  all: match goal with
       | |- context [digitVal ?c] =>
           let v := eval vm_compute in (digitVal c) in change (digitVal c) with v
       end.
  all: lia.
Qed.

Lemma digits_numeric s :
  digits s = true → numeric s = true ∧ decimalValue s = positional s.
Proof.
  destruct s as [|c s]; [done|]. intros Hd. unfold numeric, decimalValue.
  cbn [digits allDigits] in Hd. apply andb_prop in Hd as [Hc Hs].
  destruct (Ascii.eqb_spec c "+") as [->|_]; [done|].
  destruct (Ascii.eqb_spec c "-") as [->|_]; [done|].
  cbn [orb digits allDigits]. by rewrite Hc, Hs.
Qed.

Lemma string_of_pos p :
  NilZero.string_of_uint (Pos.to_uint p) = NilEmpty.string_of_uint (Pos.to_uint p).
Proof.
  pose proof (DecimalPos.Unsigned.to_uint_nonnil p). by destruct (Pos.to_uint p).
Qed.

Lemma string_of_pos_digits p :
  digits (NilEmpty.string_of_uint (Pos.to_uint p)) = true.
Proof.
  pose proof (DecimalPos.Unsigned.to_uint_nonnil p) as Hnil.
  pose proof (string_of_uint_allDigits (Pos.to_uint p)) as Hall.
  by destruct (Pos.to_uint p).
Qed.

Lemma string_of_pos_value p :
  positional (NilEmpty.string_of_uint (Pos.to_uint p)) = Z.pos p.
Proof. by rewrite positional_of_uint, DecimalPos.Unsigned.of_to. Qed.

(** What [Itoa] prints reads back as the number printed. *)
Lemma Itoa_numeric z : numeric (Itoa z) = true ∧ decimalValue (Itoa z) = z.
Proof.
  destruct z as [|p|p]; unfold Itoa; cbn [Z.to_int NilZero.string_of_int]; [done|..];
    rewrite string_of_pos.
  - destruct (digits_numeric _ (string_of_pos_digits p)) as [-> ->].
    by rewrite string_of_pos_value.
  - cbn [numeric decimalValue Ascii.eqb Bool.eqb orb andb].
    by rewrite string_of_pos_digits, string_of_pos_value.
Qed.

Lemma Itoa_inj a b : Itoa a = Itoa b → a = b.
Proof.
  intros Heq. destruct (Itoa_numeric a) as [_ <-], (Itoa_numeric b) as [_ <-].
  by rewrite Heq.
Qed.

Lemma Itoa_nonneg_digits z : 0 ≤ z → digits (Itoa z) = true.
Proof.
  destruct z as [|p|p]; [done| |lia]. intros _.
  unfold Itoa. cbn [Z.to_int NilZero.string_of_int].
  rewrite string_of_pos. apply string_of_pos_digits.
Qed.

Lemma Atoi_error_shape t v e :
  Atoi t = (v, Some e) →
  e = NumError "Atoi" t ErrSyntax ∨ e = NumError "Atoi" t ErrRange.
Proof.
  unfold Atoi, ParseInt, syntaxError, rangeError. destruct t as [|c t]; [intros [= _ <-]; by left|].
  cbv zeta. repeat case_match; intros [= _ <-]; auto.
Qed.

Lemma Atoi_numeric_overflow t :
  numeric t = true → ¬ fitsInt t →
  ∃ v, Atoi t = (v, Some (NumError "Atoi" t ErrRange)).
Proof.
  intros Hnum Hfit.
  destruct (Atoi t) as [v [e|]] eqn:Hatoi.
  - exists v. f_equal. f_equal.
    destruct t as [|c t]; [done|].
    revert Hatoi Hnum. unfold Atoi, ParseInt, numeric, syntaxError, rangeError. cbv zeta.
    destruct (Ascii.eqb c "+" || Ascii.eqb c "-"); intros Hatoi Hd;
      rewrite ParseUint_digits in Hatoi by done;
      repeat case_match; by simplify_eq.
  - destruct (Atoi_rejects t) as (v' & e' & Hrej); [by right | congruence].
Qed.

Lemma splitHostportLoop_skips_ports rest before : ∀ i mapped,
  Forall portToken before →
  ∃ mapped',
    splitHostportLoop (before ++ rest) i mapped
    = splitHostportLoop rest (i + length before)%nat mapped'.
Proof.
  induction before as [|t before IH]; intros i mapped Hall.
  - exists mapped. by rewrite Nat.add_0_r.
  - apply Forall_cons in Hall as [[Hnum Hval] Hall].
    cbn [app splitHostportLoop length]. rewrite Atoi_numeric by (done || lia).
    replace ((decimalValue t <=? 0) || (decimalValue t >=? 65536)) with false by lia.
    destruct (IH (S i) (<[i := int32 (decimalValue t)]> mapped) Hall) as [mapped' ->].
    exists mapped'. f_equal. lia.
Qed.

(** X1.  Printing a list of ports as the label does and parsing it gives
    the list back: for at least one port, each strictly within
    (0, 65536), the decimal numbers joined by dots parse to the same ports
    in the same order. *)
Theorem splitHostportStrings_prints_back ports :
  ports ≠ [] →
  Forall (λ p, 0 < p < 65536) ports →
  splitHostportStrings (strings.Join (map Itoa ports) ".") = (ports, None).
Proof.
  intros Hne Hports.
  assert (Htokens : Forall portToken (map Itoa ports)).
  { apply Forall_map. eapply Forall_impl; [exact Hports|]. intros p Hp.
    destruct (Itoa_numeric p) as [Hnum Hval]. split; [done | by rewrite Hval]. }
  assert (Hsplit : strings.Split (strings.Join (map Itoa ports) ".") "." = map Itoa ports).
  { apply Split_Join; [by destruct ports|].
    eapply Forall_impl; [exact Htokens|]. intros t [Hnum _]. by apply numeric_free. }
  unfold splitHostportStrings. rewrite Hsplit.
  rewrite splitHostportLoop_accepts by (done || by rewrite length_replicate).
  rewrite take_0. cbn [app]. f_equal. clear.
  induction ports as [|p ports IH]; [done|].
  cbn [map]. by rewrite (proj2 (Itoa_numeric p)), IH.
Qed.

(** X2.  The two shapes of a parse result.  Without an error there is at
    least one port, one per dot-separated token, and every port is the
    value of its token and lies strictly within (0, 65536).  With an error
    the slice is nil. *)
Theorem splitHostportStrings_result_shape portsString :
  match splitHostportStrings portsString with
  | (ports, None) =>
      ports ≠ []
      ∧ ports = map decimalValue (strings.Split portsString ".")
      ∧ Forall portToken (strings.Split portsString ".")
      ∧ Forall (λ p, 0 < p < 65536) ports
  | (ports, Some _) => ports = []
  end.
Proof.
  destruct (decide (Forall portToken (strings.Split portsString "."))) as [Hall|Hbad].
  - unfold splitHostportStrings.
    rewrite splitHostportLoop_accepts by (done || by rewrite length_replicate).
    rewrite take_0. cbn [app]. split; [|split; [done|split; [done|]]].
    + pose proof (Split_nonempty portsString "."). by destruct (strings.Split _ _).
    + apply Forall_map. eapply Forall_impl; [exact Hall|]. by intros t [_ Hv].
  - apply not_Forall_Exists in Hbad; [|apply _].
    destruct (splitHostportLoop_rejects (strings.Split portsString ".") 0
                (replicate (length (strings.Split portsString ".")) 0)) as [e He].
    { eapply Exists_impl; [exact Hbad|]. by intros t Ht. }
    unfold splitHostportStrings. by rewrite He.
Qed.

(** X3.  The error names the first token that is not a port.  When every
    token before [t] is a port and [t] is not: a number that fits an [int]
    but not the port range gives the error [Port is not in valid range]; a
    number too large for an [int] gives the [Atoi] range error for [t];
    anything else gives an [Atoi] error for [t] (syntax, or range when the
    digits overflow before the first bad byte).  The tokens after [t] play
    no part. *)
Theorem splitHostportStrings_reports_first_bad_token portsString before t rest :
  strings.Split portsString "." = (before ++ t :: rest)%list →
  Forall portToken before →
  ¬ portToken t →
  (numeric t = true ∧ fitsInt t
   ∧ splitHostportStrings portsString
     = ([], Some (errors.New "Port is not in valid range")))
  ∨ (numeric t = true ∧ ¬ fitsInt t
     ∧ splitHostportStrings portsString = ([], Some (NumError "Atoi" t ErrRange)))
  ∨ (numeric t = false
     ∧ (splitHostportStrings portsString = ([], Some (NumError "Atoi" t ErrSyntax))
        ∨ splitHostportStrings portsString = ([], Some (NumError "Atoi" t ErrRange)))).
Proof.
  intros Hsplit Hbefore Hbad. unfold splitHostportStrings. rewrite Hsplit.
  destruct (splitHostportLoop_skips_ports (t :: rest) before 0
              (replicate (length (before ++ t :: rest)) 0) Hbefore) as [mapped' ->].
  cbn [splitHostportLoop].
  destruct (numeric t) eqn:Hnum.
  - destruct (decide (fitsInt t)) as [Hfit|Hfit].
    + left. split; [done|]. split; [done|].
      rewrite Atoi_numeric by done.
      destruct ((decimalValue t <=? 0) || (decimalValue t >=? 65536)) eqn:Hrange; [done|].
      exfalso. apply Hbad. split; [done | lia].
    + right; left. split; [done|]. split; [done|].
      by destruct (Atoi_numeric_overflow t Hnum Hfit) as [v ->].
  - right; right. split; [done|].
    destruct (Atoi_rejects t) as (v & e & Hatoi); [by left|]. rewrite Hatoi.
    destruct (Atoi_error_shape t v e Hatoi) as [-> | ->]; auto.
Qed.

End Printing.

(** ** Further properties: names *)

Section Names.

Lemma free_append_sep sep a b : free sep (a +:+ String sep b) = false.
Proof.
  induction a as [|c a IH]; simpl.
  - by rewrite Ascii.eqb_refl.
  - rewrite IH. apply andb_false_r.
Qed.

Lemma append_sep_inj sep a a' b b' :
  free sep b = true → free sep b' = true →
  a +:+ String sep b = a' +:+ String sep b' → a = a' ∧ b = b'.
Proof.
  intros Hb Hb'. revert a'.
  induction a as [|c a IH]; intros [|c' a']; simpl; intros Heq; simplify_eq.
  - done.
  - by rewrite free_append_sep in Hb.
  - by rewrite free_append_sep in Hb'.
  - by destruct (IH a') as [-> ->].
Qed.

Lemma append_cancel_l a b c : a +:+ b = a +:+ c → b = c.
Proof. induction a as [|x a IH]; simpl; intros Heq; simplify_eq; auto. Qed.

Lemma digits_free_of sep s :
  strconv.isDigit sep = false → allDigits s = true → free sep s = true.
Proof.
  intros Hsep. induction s as [|c s IH]; simpl; [done|].
  intros [Hc Hs]%andb_prop. rewrite IH by done.
  destruct (Ascii.eqb_spec c sep) as [->|]; [congruence | done].
Qed.

Lemma Itoa_free_of_dash p : 0 ≤ p → free "-" (strconv.Itoa p) = true.
Proof.
  intros Hp. pose proof (Itoa_nonneg_digits p Hp) as Hd.
  destruct (strconv.Itoa p) as [|c rest] eqn:Heq; [done|].
  by apply digits_free_of.
Qed.

(** X4.  Derived names do not collide.  Two service names agree only for
    the same pod name and the same port, as long as the ports are not
    negative (which holds for every parsed port); and two annotation keys
    agree only for the same port. *)
Theorem derived_names_do_not_collide pod pod' p p' :
  (0 ≤ p → 0 ≤ p' →
   podPortToServiceName pod p = podPortToServiceName pod' p' →
   Name (PodMeta pod) = Name (PodMeta pod') ∧ p = p')
  ∧ (podPortToAnnotation p = podPortToAnnotation p' → p = p').
Proof.
  split.
  - intros Hp Hp' Heq. unfold podPortToServiceName in Heq.
    apply (append_sep_inj "-") in Heq as [Hname Hport]; [|by apply Itoa_free_of_dash..].
    split; [done | by apply Itoa_inj].
  - unfold podPortToAnnotation. intros Heq.
    apply append_cancel_l, append_cancel_l in Heq. by apply Itoa_inj.
Qed.

(** X5.  The key under which a pod is remembered in [handledPods]
    identifies the pod: when the names contain no slash (as Kubernetes
    names do not), two pods have the same key only if they have the same
    namespace and the same name. *)
Theorem namespacedPodName_identifies_pod pod pod' :
  free "/" (Name (PodMeta pod)) = true →
  free "/" (Name (PodMeta pod')) = true →
  namespacedPodName pod = namespacedPodName pod' →
  Namespace (PodMeta pod) = Namespace (PodMeta pod')
  ∧ Name (PodMeta pod) = Name (PodMeta pod').
Proof.
  intros Hname Hname' Heq. unfold namespacedPodName in Heq.
  by apply (append_sep_inj "/") in Heq.
Qed.

End Names.

(** ** Further properties: exposing one port *)

Section Exposing.

Context {Cluster : Type} (client : Clientset Cluster).

Implicit Types (s : State Cluster) (pod : Pod).

Local Ltac unfold_m :=
  unfold bind, ret, panic, Printf, request, getCachedExternalIPs, setCachedExternalIP,
    getHandledPods, setHandledPod, deleteHandledPod.
Local Ltac unfold_m_in H :=
  unfold bind, ret, panic, Printf, request, getCachedExternalIPs, setCachedExternalIP,
    getHandledPods, setHandledPod, deleteHandledPod in H.

(** A lookup returns what the cache holds for the node afterwards, and
    changes the cache at most by adding the node. *)
Lemma getOrFetchExternalNodeIp_returns_cached nodeName s :
  ∃ ip s' lookups,
    getOrFetchExternalNodeIp client nodeName s = Ret ip s'
    ∧ after s lookups s' ∧ nodeLookups nodeName s lookups
    ∧ ip = index (cachedExternalIPs s') nodeName
    ∧ cluster s' = clusterAfter client lookups (cluster s)
    ∧ (cachedExternalIPs s' = cachedExternalIPs s
       ∨ cachedExternalIPs s !! nodeName = None
         ∧ cachedExternalIPs s' = <[nodeName := ip]> (cachedExternalIPs s)).
Proof.
  unfold nodeLookups.
  destruct (cachedExternalIPs s !! nodeName) as [ip|] eqn:Hcache.
  - exists ip, s, []. rewrite (getOrFetchExternalNodeIp_hit _ _ _ ip) by done.
    split; [done|]. split; [apply after_refl|]. split; [done|].
    split; [unfold index; by rewrite Hcache|]. split; [done | by left].
  - destruct (nodesGet client nodeName (cluster s)) as [[node err] k] eqn:Hget.
    destruct (getOrFetchExternalNodeIp_miss _ _ _ _ _ _ Hcache Hget)
      as (s' & -> & Hk & Hafter & Hs').
    eexists _, s', _. split; [done|]. split; [done|]. split; [by eexists|].
    assert (Hreplay : cluster s' = clusterAfter client [(NodesGet nodeName, err)] (cluster s)).
    { cbn [clusterAfter respond fst]. by rewrite Hget. }
    rewrite Hs'. unfold index.
    destruct err as [e|]; [|destruct (externalAddress node) as [a|]].
    + rewrite Hcache. split; [done|]. split; [done | by left].
    + rewrite lookup_insert_eq. split; [done|]. split; [done | by right].
    + rewrite Hcache. split; [done|]. split; [done | by left].
Qed.

Lemma createService_run pod requestedPort s :
  ∃ issued,
    after s issued (final (createService client pod requestedPort s))
    ∧ createRun client pod requestedPort s (createService client pod requestedPort s) issued
    ∧ (cachedExternalIPs (final (createService client pod requestedPort s))
       = cachedExternalIPs s
       ∨ cachedExternalIPs s !! NodeName (Spec pod) = None
         ∧ ∃ ip, cachedExternalIPs (final (createService client pod requestedPort s))
                 = <[NodeName (Spec pod) := ip]> (cachedExternalIPs s)).
Proof.
  remember (createService client pod requestedPort s) as o eqn:Ho.
  unfold createService in Ho.
  destruct (String.eqb_spec
              (index (Annotations (PodMeta pod)) (podPortToAnnotation requestedPort))
              EmptyString) as [Hann|Hann]; cbn [negb] in Ho.
  2:{ exists []. unfold_m_in Ho. subst o. cbn [final]. split; [apply after_output|].
      split; [by constructor | by left]. }
  unfold bind at 1 in Ho. unfold Printf at 1 in Ho.
  set (s0 := withOutput s _) in Ho.
  assert (H0 : after s [] s0) by apply after_output.
  unfold bind at 1 in Ho. unfold Endpoints_Create, request in Ho.
  destruct (endpointsCreate client _ _ (cluster s0)) as [[e|] k1] eqn:Hep;
    cbn [id] in Ho.
  { unfold ret in Ho. subst o. eexists [_]. cbn [final].
    split; [|split; [apply run_endpoints_failed | by left]].
    eapply (after_trans _ _ _ [] [_]); [exact H0 | apply after_call]. }
  set (s1 := withCall s0 k1 _ _) in Ho.
  assert (H1 : after s [(EndpointsCreate (Namespace (PodMeta pod))
                           (derivedEndpoints pod requestedPort), None)] s1)
    by (eapply (after_trans _ _ _ [] [_]); [exact H0 | apply after_call]).
  assert (Hcreated : (endpointsCreate client (Namespace (PodMeta pod))
                        (derivedEndpoints pod requestedPort) (cluster s)).1 = None)
    by exact (f_equal fst Hep).
  assert (Hk1 : (endpointsCreate client (Namespace (PodMeta pod))
                   (derivedEndpoints pod requestedPort) (cluster s)).2 = cluster s1)
    by exact (f_equal snd Hep).
  unfold bind at 1 in Ho.
  destruct (getOrFetchExternalNodeIp_returns_cached (NodeName (Spec pod)) s1)
    as (ip & s2 & lookups & Hip & H2 & Hlookups & Hcached & Hk2 & Hcache).
  rewrite Hip in Ho.
  assert (Hlookups' : nodeLookups (NodeName (Spec pod)) s lookups) by exact Hlookups.
  assert (Hcache' : cachedExternalIPs s2 = cachedExternalIPs s
                    ∨ cachedExternalIPs s !! NodeName (Spec pod) = None
                      ∧ ∃ ip, cachedExternalIPs s2
                              = <[NodeName (Spec pod) := ip]> (cachedExternalIPs s)).
  { destruct Hcache as [?|[? ?]]; [by left | right; split; [done | by exists ip]]. }
  unfold bind at 1 in Ho.
  set (choose := if negb _ then _ else _) in Ho.
  assert (Hchoose : ∃ s3,
             choose s2 = Ret (derivedService pod requestedPort (restrictedTo ip)) s3
             ∧ after s2 [] s3 ∧ cachedExternalIPs s3 = cachedExternalIPs s2
             ∧ cluster s3 = cluster s2).
  { subst choose. unfold restrictedTo.
    destruct (String.eqb ip EmptyString); cbn [negb]; unfold_m; eexists;
      (split; [done|]); (split; [|done]); [apply after_output | apply after_refl]. }
  destruct Hchoose as (s3 & Hchoose & H3 & Hcache3 & Hk3). rewrite Hchoose in Ho.
  clear Hchoose choose.
  pose proof (after_trans _ _ _ _ _ (after_trans _ _ _ _ _ H1 H2) H3) as H13.
  assert (Hreplay : cluster s3
                    = clusterAfter client
                        ((EndpointsCreate (Namespace (PodMeta pod))
                            (derivedEndpoints pod requestedPort), None) :: lookups)
                        (cluster s)).
  { rewrite Hk3, Hk2. cbn [clusterAfter respond fst]. by rewrite Hk1. }
  rewrite Hcached, <- Hcache3 in Ho. rewrite <- Hcache3 in Hcache'.
  unfold bind at 1 in Ho. unfold Services_Create, request in Ho.
  destruct (servicesCreate client _ _ (cluster s3))
    as [[newService [e|]] k4] eqn:Hsvc; cbn [snd fst] in Ho; rewrite Hreplay in Hsvc.
  { unfold ret in Ho. subst o. eexists. cbn [final].
    split; [|split; [by eapply run_service_failed | exact Hcache']].
    eapply after_eq; [exact (after_trans _ _ _ _ _ H13 (after_call _ _ _ _))|].
    simpl. by rewrite app_nil_r. }
  set (s4 := withCall s3 k4 _ _) in Ho.
  pose proof (after_trans _ _ _ _ _ H13 (after_call s3 k4 _ None : after s3 _ s4)) as H14.
  destruct (ServicePorts (ServiceSpec_ newService)) as [|port0 ports] eqn:Hports.
  { unfold panic in Ho. subst o. eexists. cbn [final].
    split; [|split; [by eapply run_no_port | exact Hcache']].
    eapply after_eq; [exact H14|]. simpl. by rewrite app_nil_r. }
  unfold addPodPortAnnotation in Ho. unfold bind at 1 in Ho.
  unfold Pods_Patch, request in Ho.
  destruct (podsPatch client _ _ _ (cluster s4)) as [[e|] k5] eqn:Hpatch; cbn [id] in Ho.
  - unfold_m_in Ho. subst o. eexists. cbn [final]. split.
    2:{ split; [by eapply (run_patched _ _ _ _ _ _ _ _ port0) | exact Hcache']. }
    eapply after_eq;
      [exact (after_trans _ _ _ _ _
                (after_trans _ _ _ _ _ H14 (after_call _ _ _ _)) (after_output _ _))|].
    simpl. rewrite <- !app_assoc. simpl. reflexivity.
  - unfold_m_in Ho. subst o. eexists. cbn [final]. split.
    2:{ split; [by eapply (run_patched _ _ _ _ _ _ _ _ port0) | exact Hcache']. }
    eapply after_eq; [exact (after_trans _ _ _ _ _ H14 (after_call _ _ _ _))|].
    simpl. rewrite <- !app_assoc. simpl. reflexivity.
Qed.

Lemma nodeLookups_requestFor pod requestedPort s lookups :
  nodeLookups (NodeName (Spec pod)) s lookups →
  Forall (λ cr, requestFor pod requestedPort cr.1) lookups.
Proof.
  unfold nodeLookups. destruct (_ !! _); [intros -> | intros [r ->]]; by repeat constructor.
Qed.

Lemma createRun_requestFor pod requestedPort s o issued :
  createRun client pod requestedPort s o issued →
  Forall (λ cr, requestFor pod requestedPort cr.1) issued.
Proof.
  intros [line ?|s' e|s' lookups e Hl|s' lookups newService Hl ? ? ?
         |s' lookups newService k' port0 ports r Hl ? ? ? ?];
    try (pose proof (nodeLookups_requestFor pod requestedPort s lookups Hl) as Hlookups);
    repeat first [ apply Forall_nil_2
                 | apply Forall_cons; split
                 | apply Forall_app; split; [exact Hlookups|] ];
    cbn; eauto.
Qed.

(** X6.  Every request of one [createService] call is about this pod and
    this port: the endpoints object and the service are created in the
    pod's namespace under the name [<pod name>-<port>], labelled as
    managed by this program and as made for this pod; the endpoints object
    binds the pod's IP to the requested port; the service is of type
    NodePort with the requested port as port and target port; the patch
    goes to this pod and sets the annotation of this port; a node query
    asks for the pod's node.  Nothing else is sent. *)
Theorem createService_sends_derived_objects pod requestedPort s :
  ∃ issued,
    calls (final (createService client pod requestedPort s)) = (calls s ++ issued)%list
    ∧ Forall (λ cr, requestFor pod requestedPort cr.1) issued.
Proof.
  destruct (createService_run pod requestedPort s) as (issued & Hafter & Hrun & _).
  exists issued. split; [apply Hafter | by eapply createRun_requestFor].
Qed.

(** X7.  The service is restricted to the address the cache holds for the
    pod's node once the call is over: a service creation sent by
    [createService] lists exactly that address as external IP when it is
    not empty, and no external IP when the cache has no address for the
    node (or an empty one). *)
Theorem createService_restricts_to_cached_address pod requestedPort s :
  ∃ issued,
    calls (final (createService client pod requestedPort s)) = (calls s ++ issued)%list
    ∧ ∀ ns service r,
        (ServicesCreate ns service, r) ∈ issued →
        let address :=
          index (cachedExternalIPs (final (createService client pod requestedPort s)))
            (NodeName (Spec pod)) in
        ExternalIPs (ServiceSpec_ service)
        = if String.eqb address EmptyString then [] else [address].
Proof.
  destruct (createService_run pod requestedPort s) as (issued & Hafter & Hrun & _).
  exists issued. split; [apply Hafter|]. intros ns service r Hin address. subst address.
  destruct Hrun as [line ?|s' e|s' lookups e Hl|s' lookups newService Hl ? ? ?
                   |s' lookups newService k' port0 ports r' Hl ? ? ? ?];
    try (pose proof (nodeLookups_only_NodesGet _ _ _ Hl) as Hget;
         rewrite Forall_forall in Hget);
    cbn [final].
  - by apply elem_of_nil in Hin.
  - by apply list_elem_of_singleton in Hin.
  - apply elem_of_cons in Hin as [[=]|Hin].
    apply elem_of_app in Hin as [Hin|Hin]; [by apply Hget in Hin|].
    by apply list_elem_of_singleton in Hin as [= _ -> _].
  - apply elem_of_cons in Hin as [[=]|Hin].
    apply elem_of_app in Hin as [Hin|Hin]; [by apply Hget in Hin|].
    by apply list_elem_of_singleton in Hin as [= _ -> _].
  - apply elem_of_cons in Hin as [[=]|Hin].
    apply elem_of_app in Hin as [Hin|Hin]; [by apply Hget in Hin|].
    apply elem_of_cons in Hin as [[= _ -> _]|Hin]; [done|].
    by apply list_elem_of_singleton in Hin.
Qed.

(** X8.  The patch carries the node port the cluster assigned.  When a
    [createService] call sends a patch, the patch is the last request of
    the call and the service creation is the one before it.  That creation
    succeeded: the cluster, in the state the earlier requests of this call
    had left, answered it with a service whose first port has some node
    port.  The patch body is the merge patch that sets the annotation of
    the requested port to that node port; the cluster answers the patch in
    the state the service creation left, and that answer is what the call
    returns. *)
Theorem createService_patches_assigned_port pod requestedPort s :
  ∃ issued,
    calls (final (createService client pod requestedPort s)) = (calls s ++ issued)%list
    ∧ ∀ ns name data r,
        (PodsPatch ns name data, r) ∈ issued →
        ∃ before service newService k' port0 ports,
          issued = (before ++ [(ServicesCreate (Namespace (PodMeta pod)) service, None);
                               (PodsPatch ns name data, r)])%list
          ∧ servicesCreate client (Namespace (PodMeta pod)) service
              (clusterAfter client before (cluster s))
            = ((newService, None), k')
          ∧ ServicePorts (ServiceSpec_ newService) = port0 :: ports
          ∧ data = serializedJson requestedPort (NodePort port0)
          ∧ podsPatch client ns name data k'
            = (r, cluster (final (createService client pod requestedPort s)))
          ∧ ∃ s', createService client pod requestedPort s = Ret r s'.
Proof.
  destruct (createService_run pod requestedPort s) as (issued & Hafter & Hrun & _).
  exists issued. split; [apply Hafter|]. intros ns name data r Hin.
  destruct Hrun as [line ?|s' e|s' lookups e Hl|s' lookups newService Hl ? ? ?
                   |s' lookups newService k' port0 ports r' Hl Hcreated Hanswer Hports Hpatch];
    try (pose proof (nodeLookups_only_NodesGet _ _ _ Hl) as Hget;
         rewrite Forall_forall in Hget).
  - by apply elem_of_nil in Hin.
  - by apply list_elem_of_singleton in Hin.
  - apply elem_of_cons in Hin as [[=]|Hin].
    apply elem_of_app in Hin as [Hin|Hin]; [by apply Hget in Hin|].
    by apply list_elem_of_singleton in Hin.
  - apply elem_of_cons in Hin as [[=]|Hin].
    apply elem_of_app in Hin as [Hin|Hin]; [by apply Hget in Hin|].
    by apply list_elem_of_singleton in Hin.
  - apply elem_of_cons in Hin as [[=]|Hin].
    apply elem_of_app in Hin as [Hin|Hin]; [by apply Hget in Hin|].
    apply elem_of_cons in Hin as [[=]|Hin].
    apply list_elem_of_singleton in Hin as [= -> -> -> ->].
    eexists (_ :: lookups), _, newService, k', port0, ports.
    split; [reflexivity|]. split; [exact Hanswer|]. split; [exact Hports|].
    split; [reflexivity|]. split; [exact Hpatch | by eexists].
Qed.

Lemma createService_returns pod requestedPort s :
  keepsPorts client → ∃ r s', createService client pod requestedPort s = Ret r s'.
Proof.
  intros Hkeeps.
  destruct (createService_run pod requestedPort s) as (issued & _ & Hrun & _).
  destruct Hrun as [line ?|s' e|s' lookups e Hl|s' lookups newService Hl ? Hanswer Hnone
                   |s' lookups newService k' port0 ports r' Hl ? ? ? ?];
    try by eexists _, _.
  exfalso. eapply Hkeeps; [|by rewrite Hanswer|by rewrite Hanswer]. done.
Qed.

(** X9.  The one panic of [createService].  The call panics only with an
    index out of range at index 0.  By then it has sent the endpoints
    creation, which succeeded, at most a query for the pod's node, and the
    creation of the derived service, which has one port; nothing else, so
    no patch.  The cluster, in the state the earlier requests of this call
    had left, answered the service creation without an error and with a
    service that has no port at all, and the call ends in the state this
    answer left.  When the cluster never answers the successful creation
    of a service that has ports with a service that has none, the call
    always returns. *)
Theorem createService_panics_only_without_ports pod requestedPort s :
  (∀ v s',
     createService client pod requestedPort s = Panic v s' →
     v = IndexOutOfRange 0 0
     ∧ ∃ lookups externalIPs newService,
         calls s'
         = (calls s
              ++ (EndpointsCreate (Namespace (PodMeta pod))
                    (derivedEndpoints pod requestedPort), None)
              :: lookups
              ++ [(ServicesCreate (Namespace (PodMeta pod))
                     (derivedService pod requestedPort externalIPs), None)])%list
         ∧ Forall (λ cr, isNodesGet cr.1 = true) lookups
         ∧ (endpointsCreate client (Namespace (PodMeta pod))
              (derivedEndpoints pod requestedPort) (cluster s)).1 = None
         ∧ servicesCreate client (Namespace (PodMeta pod))
             (derivedService pod requestedPort externalIPs)
             (clusterAfter client
                ((EndpointsCreate (Namespace (PodMeta pod))
                    (derivedEndpoints pod requestedPort), None) :: lookups)
                (cluster s))
           = ((newService, None), cluster s')
         ∧ ServicePorts (ServiceSpec_ newService) = [])
  ∧ (keepsPorts client → ∃ r s', createService client pod requestedPort s = Ret r s').
Proof.
  destruct (createService_run pod requestedPort s) as (issued & Hafter & Hrun & _).
  split.
  - intros v s' Hpanic. rewrite Hpanic in Hrun, Hafter. cbn [final] in Hafter.
    inversion Hrun as [| | |s'' lookups newService Hl Hcreated Hanswer Hports|]; subst.
    split; [done|]. eexists lookups, _, newService.
    split; [apply Hafter|]. split; [by eapply nodeLookups_only_NodesGet|].
    split; [exact Hcreated|]. split; [exact Hanswer | exact Hports].
  - apply createService_returns.
Qed.

(** X10.  What one exposure leaves alone.  A [createService] call never
    touches [handledPods].  It changes [cachedExternalIPs] at most by
    adding an entry for the pod's own node, and only when the node had
    none: no existing entry is overwritten or removed. *)
Theorem createService_adds_at_most_own_node pod requestedPort s :
  handledPods (final (createService client pod requestedPort s)) = handledPods s
  ∧ (cachedExternalIPs (final (createService client pod requestedPort s))
     = cachedExternalIPs s
     ∨ cachedExternalIPs s !! NodeName (Spec pod) = None
       ∧ ∃ ip, cachedExternalIPs (final (createService client pod requestedPort s))
               = <[NodeName (Spec pod) := ip]> (cachedExternalIPs s)).
Proof.
  destruct (createService_run pod requestedPort s) as (issued & Hafter & _ & Hcache).
  split; [apply Hafter | exact Hcache].
Qed.

End Exposing.

(** ** Further properties: one event *)

Section Events.

Context {Cluster : Type} (client : Clientset Cluster).

Implicit Types (s : State Cluster) (pod : Pod).

Lemma createServicesLoop_run pod requestedPorts : ∀ s,
  ∃ issued,
    after s issued (final (createServicesLoop client pod requestedPorts s))
    ∧ Forall (λ cr, ∃ q, q ∈ requestedPorts ∧ requestFor pod q cr.1) issued
    ∧ (cachedExternalIPs (final (createServicesLoop client pod requestedPorts s))
       = cachedExternalIPs s
       ∨ cachedExternalIPs s !! NodeName (Spec pod) = None
         ∧ ∃ ip, cachedExternalIPs (final (createServicesLoop client pod requestedPorts s))
                 = <[NodeName (Spec pod) := ip]> (cachedExternalIPs s)).
Proof.
  induction requestedPorts as [|port rest IH]; intros s.
  - exists []. split; [apply after_refl|]. split; [constructor | by left].
  - cbn [createServicesLoop]. unfold bind.
    destruct (createService_run client pod port s) as (issued & Hafter & Hrun & Hcache).
    apply createRun_requestFor in Hrun.
    assert (Hfor : Forall (λ cr : Call * option error,
                             ∃ q, q ∈ port :: rest ∧ requestFor pod q cr.1) issued).
    { eapply Forall_impl; [exact Hrun|]. intros cr Hcr. exists port.
      split; [apply list_elem_of_here | done]. }
    destruct (createService client pod port s) as [[e|] s1|v s1]; cbn [final] in *;
      [by exists issued| |by exists issued].
    destruct (IH s1) as (issued' & Hafter' & Hfor' & Hcache').
    exists (issued ++ issued')%list. split; [by eapply after_trans|]. split.
    + apply Forall_app. split; [done|].
      eapply Forall_impl; [exact Hfor'|]. intros cr (q & Hq & Hcr). exists q.
      split; [by apply list_elem_of_further | done].
    + destruct Hcache as [Heq|[Hnone [ip Heq]]], Hcache' as [Heq'|[Hnone' [ip' Heq']]];
        rewrite ?Heq', ?Heq in *.
      * by left.
      * right. split; [done | by exists ip'].
      * right. split; [done | by exists ip].
      * by rewrite lookup_insert_eq in Hnone'.
Qed.

Lemma createServicesLoop_failure pod requestedPorts : ∀ s,
  (∀ s', createServicesLoop client pod requestedPorts s ≠ Ret None s') →
  ∃ done p rest s1,
    requestedPorts = (done ++ p :: rest)%list
    ∧ createServicesLoop client pod done s = Ret None s1
    ∧ createService client pod p s1 = createServicesLoop client pod requestedPorts s
    ∧ ∀ s', createService client pod p s1 ≠ Ret None s'.
Proof.
  induction requestedPorts as [|port rest IH]; intros s Hfail.
  - by destruct (Hfail s).
  - cbn [createServicesLoop] in *. unfold bind in *.
    destruct (createService client pod port s) as [[e|] s1|v s1] eqn:Hport.
    + exists [], port, rest, s. rewrite Hport. by repeat split.
    + destruct (IH s1 Hfail) as (done & p & rest' & s2 & -> & Hdone & Hp & Hne).
      exists (port :: done), p, rest', s2. split; [done|].
      cbn [createServicesLoop]. unfold bind. rewrite Hport. by repeat split.
    + exists [], port, rest, s. rewrite Hport. by repeat split.
Qed.

Lemma deletePodServicesLoop_keeps_cache pod requestedPorts : ∀ s,
  cachedExternalIPs (final (deletePodServicesLoop client pod requestedPorts s))
  = cachedExternalIPs s.
Proof.
  induction requestedPorts as [|port rest IH]; intros s; [done|].
  cbn [deletePodServicesLoop]. unfold bind at 1. unfold Printf at 1.
  unfold bind at 1. unfold deleteService, Services_Delete, request.
  destruct (servicesDelete client _ _ _) as [[e|] k1]; cbn [id]; [done|].
  by rewrite IH.
Qed.

(** X11.  An event touches only what belongs to its pod.  Whatever the
    event and its outcome, every other key of [handledPods] keeps its
    entry, every other node keeps its cache entry or its absence, and no
    cache entry at all is overwritten or removed. *)
Theorem handlePodEvent_touches_own_entries eventType pod s :
  (∀ key, key ≠ namespacedPodName pod →
          handledPods (final (handlePodEvent client eventType pod s)) !! key
          = handledPods s !! key)
  ∧ (∀ node, node ≠ NodeName (Spec pod) →
             cachedExternalIPs (final (handlePodEvent client eventType pod s)) !! node
             = cachedExternalIPs s !! node)
  ∧ (∀ node ip, cachedExternalIPs s !! node = Some ip →
                cachedExternalIPs (final (handlePodEvent client eventType pod s)) !! node
                = Some ip).
Proof.
  split; [|split; [|intros node ip; apply handlePodEvent_keeps_cache]].
  - intros key Hkey.
    destruct (decide (eventType = watch.Deleted)) as [->|Het].
    + rewrite handlePodEvent_deleted.
      destruct (splitHostportStrings _) as [ports [e|]]; cbn [final handledPods withHandledPods].
      { by rewrite lookup_delete_ne. }
      destruct (deletePodServicesLoop_run client pod ports
                  (withHandledPods s (delete (namespacedPodName pod) (handledPods s))))
        as (r & s' & -> & Hrun). cbn [final].
      assert (handledPods s' = delete (namespacedPodName pod) (handledPods s)) as ->.
      { destruct r; [destruct Hrun as (? & ? & ? & _ & Hafter)|]; apply Hrun || apply Hafter. }
      by rewrite lookup_delete_ne.
    + destruct (decide (handledPods s !! namespacedPodName pod = Some true
                        ∨ PodIP (Status pod) = EmptyString
                        ∨ Phase (Status pod) ≠ PodRunning)) as [Hguard|Hfree].
      * by destruct (handlePodEvent_guarded client eventType pod s Het Hguard) as [line ->].
      * rewrite handlePodEvent_unguarded; [|done|tauto|tauto|].
        2:{ destruct (decide (Phase (Status pod) = PodRunning)); tauto. }
        destruct (splitHostportStrings _) as [ports [e|]]; [done|].
        destruct (createServicesLoop_after client pod ports
                    (withHandledPods s (<[namespacedPodName pod := true]> (handledPods s))))
          as (issued & _ & _ & -> & _).
        cbn [handledPods withHandledPods]. by rewrite lookup_insert_ne.
  - intros node Hnode.
    destruct (decide (eventType = watch.Deleted)) as [->|Het].
    + rewrite handlePodEvent_deleted.
      destruct (splitHostportStrings _) as [ports [e|]]; [done|].
      by rewrite deletePodServicesLoop_keeps_cache.
    + destruct (decide (handledPods s !! namespacedPodName pod = Some true
                        ∨ PodIP (Status pod) = EmptyString
                        ∨ Phase (Status pod) ≠ PodRunning)) as [Hguard|Hfree].
      * by destruct (handlePodEvent_guarded client eventType pod s Het Hguard) as [line ->].
      * rewrite handlePodEvent_unguarded; [|done|tauto|tauto|].
        2:{ destruct (decide (Phase (Status pod) = PodRunning)); tauto. }
        destruct (splitHostportStrings _) as [ports [e|]]; [done|].
        destruct (createServicesLoop_run pod ports
                    (withHandledPods s (<[namespacedPodName pod := true]> (handledPods s))))
          as (issued & _ & _ & [->|[_ [ip ->]]]); cbn [cachedExternalIPs withHandledPods];
          [done | by rewrite lookup_insert_ne].
Qed.

Lemma handlePodEvent_cases eventType pod s :
  eventType ≠ watch.Deleted →
  (∃ line, handlePodEvent client eventType pod s = Ret None (withOutput s line))
  ∨ (∃ e, (splitHostportStrings (index (Labels (PodMeta pod)) labelKey)).2 = Some e
          ∧ handlePodEvent client eventType pod s = Ret (Some e) s)
  ∨ ((splitHostportStrings (index (Labels (PodMeta pod)) labelKey)).2 = None
     ∧ handlePodEvent client eventType pod s
       = createServicesLoop client pod
           (splitHostportStrings (index (Labels (PodMeta pod)) labelKey)).1
           (withHandledPods s (<[namespacedPodName pod := true]> (handledPods s)))).
Proof.
  intros Het.
  destruct (decide (handledPods s !! namespacedPodName pod = Some true
                    ∨ PodIP (Status pod) = EmptyString
                    ∨ Phase (Status pod) ≠ PodRunning)) as [Hguard|Hfree].
  - left. by apply handlePodEvent_guarded.
  - right. rewrite handlePodEvent_unguarded; [|done|tauto|tauto|].
    2:{ destruct (decide (Phase (Status pod) = PodRunning)); tauto. }
    destruct (splitHostportStrings _) as [ports [e|]]; [left; by exists e | by right].
Qed.

(** X12.  Every request an Added or Modified event sends is about the
    event's pod and one of the ports its label parses to: a creation of
    the endpoints object or service derived for that port, the patch of
    that port's annotation, or a query for the pod's node. *)
Theorem handlePodEvent_requests_own_ports eventType pod s :
  eventType ≠ watch.Deleted →
  ∃ issued,
    calls (final (handlePodEvent client eventType pod s)) = (calls s ++ issued)%list
    ∧ Forall (λ cr, ∃ q, q ∈ (splitHostportStrings (index (Labels (PodMeta pod)) labelKey)).1
                         ∧ requestFor pod q cr.1) issued.
Proof.
  intros Het.
  destruct (handlePodEvent_cases eventType pod s Het)
    as [[line ->]|[(e & _ & ->)|[_ ->]]]; cbn [final].
  - exists []. cbn. by rewrite app_nil_r.
  - exists []. by rewrite app_nil_r.
  - set (marked := withHandledPods s _).
    destruct (createServicesLoop_run pod
                (splitHostportStrings (index (Labels (PodMeta pod)) labelKey)).1 marked)
      as (issued & Hafter & Hfor & _).
    exists issued. split; [apply Hafter | done].
Qed.

(** X13.  An event stops at the first port that fails.  When an Added or
    Modified event gets as far as the per-port loop and does not return
    nil, the ports split into those exposed without error, the port [p]
    whose exposure produced the event's outcome (its error, or the panic),
    and the rest; every request of the event is for one of the ports up to
    [p], so nothing is sent for the ports after it. *)
Theorem handlePodEvent_stops_at_first_failure eventType pod requestedPorts s :
  eventType ≠ watch.Deleted →
  handledPods s !! namespacedPodName pod ≠ Some true →
  PodIP (Status pod) ≠ EmptyString →
  Phase (Status pod) = PodRunning →
  splitHostportStrings (index (Labels (PodMeta pod)) labelKey) = (requestedPorts, None) →
  (∀ s', handlePodEvent client eventType pod s ≠ Ret None s') →
  ∃ done p rest s1 issued,
    requestedPorts = (done ++ p :: rest)%list
    ∧ createServicesLoop client pod done
        (withHandledPods s (<[namespacedPodName pod := true]> (handledPods s)))
      = Ret None s1
    ∧ createService client pod p s1 = handlePodEvent client eventType pod s
    ∧ calls (final (handlePodEvent client eventType pod s)) = (calls s ++ issued)%list
    ∧ Forall (λ cr, ∃ q, q ∈ (done ++ [p])%list ∧ requestFor pod q cr.1) issued.
Proof.
  intros Het Hh Hip Hphase Hparse Hfail.
  rewrite handlePodEvent_unguarded in * by done. rewrite Hparse in *.
  set (marked := withHandledPods s _) in *.
  destruct (createServicesLoop_failure pod requestedPorts marked Hfail)
    as (done & p & rest & s1 & -> & Hdone & Hp & _).
  exists done, p, rest, s1.
  destruct (createServicesLoop_run pod done marked) as (issued1 & Hafter1 & Hfor1 & _).
  rewrite Hdone in Hafter1. cbn [final] in Hafter1.
  destruct (createService_run client pod p s1) as (issued2 & Hafter2 & Hrun2 & _).
  apply createRun_requestFor in Hrun2.
  exists (issued1 ++ issued2)%list. split; [done|]. split; [done|]. split; [done|].
  rewrite <- Hp. split.
  - destruct Hafter1 as [Hc1 _], Hafter2 as [Hc2 _]. by rewrite Hc2, Hc1, app_assoc.
  - apply Forall_app. split.
    + eapply Forall_impl; [exact Hfor1|]. intros cr (q & Hq & Hcr). exists q.
      split; [apply elem_of_app; by left | done].
    + eapply Forall_impl; [exact Hrun2|]. intros cr Hcr. exists p.
      split; [apply elem_of_app; right; apply list_elem_of_here | done].
Qed.

(** X14.  A Deleted event whose label does not parse forgets the pod and
    deletes nothing: the key leaves [handledPods], the parse error is
    returned, and no request is sent, so the derived services stay. *)
Theorem handlePodEvent_deleted_malformed_label pod e s :
  (splitHostportStrings (index (Labels (PodMeta pod)) labelKey)).2 = Some e →
  handlePodEvent client watch.Deleted pod s
  = Ret (Some e) (withHandledPods s (delete (namespacedPodName pod) (handledPods s))).
Proof.
  intros Hparse. rewrite handlePodEvent_deleted.
  destruct (splitHostportStrings _) as [ports [e'|]]; cbn in Hparse; by simplify_eq.
Qed.

(** X15.  After a Deleted event the pod is unseen again.  Whatever the
    label and whatever the deletions answered, the pod's key is absent from
    [handledPods] afterwards; so a later Added or Modified event for that
    namespaced name with an IP and Running is not ignored: it is decided by
    parsing its label, and a label that parses starts the per-port loop
    anew. *)
Theorem handlePodEvent_deleted_then_added pod s :
  handledPods (final (handlePodEvent client watch.Deleted pod s)) !! namespacedPodName pod
  = None
  ∧ ∀ eventType' pod',
      eventType' ≠ watch.Deleted →
      namespacedPodName pod' = namespacedPodName pod →
      PodIP (Status pod') ≠ EmptyString →
      Phase (Status pod') = PodRunning →
      let s1 := final (handlePodEvent client watch.Deleted pod s) in
      handlePodEvent client eventType' pod' s1
      = match splitHostportStrings (index (Labels (PodMeta pod')) labelKey) with
        | (_, Some e) => Ret (Some e) s1
        | (requestedPorts, None) =>
            createServicesLoop client pod' requestedPorts
              (withHandledPods s1 (<[namespacedPodName pod' := true]> (handledPods s1)))
        end.
Proof.
  assert (Hgone : handledPods (final (handlePodEvent client watch.Deleted pod s))
                    !! namespacedPodName pod = None).
  { rewrite handlePodEvent_deleted.
    destruct (splitHostportStrings _) as [ports [e|]]; cbn [final handledPods withHandledPods].
    { apply lookup_delete_eq. }
    destruct (deletePodServicesLoop_run client pod ports
                (withHandledPods s (delete (namespacedPodName pod) (handledPods s))))
      as (r & s' & -> & Hrun). cbn [final].
    assert (handledPods s' = delete (namespacedPodName pod) (handledPods s)) as ->.
    { destruct r; [destruct Hrun as (? & ? & ? & _ & Hafter)|]; apply Hrun || apply Hafter. }
    apply lookup_delete_eq. }
  split; [exact Hgone|].
  intros eventType' pod' Het' Hname Hip Hphase s1.
  apply handlePodEvent_unguarded; try done. subst s1. by rewrite Hname, Hgone.
Qed.

Lemma createService_skip pod requestedPort s :
  index (Annotations (PodMeta pod)) (podPortToAnnotation requestedPort) ≠ EmptyString →
  ∃ line, createService client pod requestedPort s = Ret None (withOutput s line).
Proof.
  intros Hann.
  destruct (createService_run client pod requestedPort s) as (issued & _ & Hrun & _).
  unfold createService in *.
  destruct (String.eqb_spec
              (index (Annotations (PodMeta pod)) (podPortToAnnotation requestedPort))
              EmptyString) as [Hempty|_]; [done|]. cbn [negb].
  by eexists.
Qed.

Lemma createServicesLoop_skip pod requestedPorts : ∀ s,
  allAnnotated pod requestedPorts →
  ∃ s', createServicesLoop client pod requestedPorts s = Ret None s' ∧ sameButOutput s s'.
Proof.
  induction requestedPorts as [|port rest IH]; intros s Hall.
  - by exists s.
  - apply Forall_cons in Hall as [Hport Hall].
    cbn [createServicesLoop]. unfold bind.
    destruct (createService_skip pod port s Hport) as [line ->].
    destruct (IH (withOutput s line) Hall) as (s' & -> & Hsame).
    exists s'. split; [done|]. exact Hsame.
Qed.

(** X16.  A pod whose requested ports all carry their annotation already
    (as after a restart of the program) is taken as handled without
    touching the cluster: an Added or Modified event for it returns nil,
    enters the pod in [handledPods] and sends no request. *)
Theorem handlePodEvent_annotated_pod_sends_nothing eventType pod requestedPorts s :
  eventType ≠ watch.Deleted →
  handledPods s !! namespacedPodName pod ≠ Some true →
  PodIP (Status pod) ≠ EmptyString →
  Phase (Status pod) = PodRunning →
  splitHostportStrings (index (Labels (PodMeta pod)) labelKey) = (requestedPorts, None) →
  allAnnotated pod requestedPorts →
  ∃ s', handlePodEvent client eventType pod s = Ret None s'
        ∧ calls s' = calls s
        ∧ cluster s' = cluster s
        ∧ handledPods s' = <[namespacedPodName pod := true]> (handledPods s)
        ∧ cachedExternalIPs s' = cachedExternalIPs s.
Proof.
  intros Het Hh Hip Hphase Hparse Hall.
  rewrite handlePodEvent_unguarded by done. rewrite Hparse.
  destruct (createServicesLoop_skip pod requestedPorts
              (withHandledPods s (<[namespacedPodName pod := true]> (handledPods s))) Hall)
    as (s' & -> & Hcluster & Hcalls & Hhandled & Hcache).
  by exists s'.
Qed.

(** X17.  A pod without a usable label value is rejected.  When the label
    is absent from the pod's labels, or present with the empty string, an
    Added or Modified event that gets past the guards returns the syntax
    error of [Atoi] on the empty string and changes nothing: not even a log
    line is written by the handler, and the pod is not handled. *)
Theorem handlePodEvent_missing_label eventType pod s :
  eventType ≠ watch.Deleted →
  handledPods s !! namespacedPodName pod ≠ Some true →
  PodIP (Status pod) ≠ EmptyString →
  Phase (Status pod) = PodRunning →
  Labels (PodMeta pod) !! labelKey = None
  ∨ Labels (PodMeta pod) !! labelKey = Some EmptyString →
  handlePodEvent client eventType pod s
  = Ret (Some (NumError "Atoi" EmptyString strconv.ErrSyntax)) s.
Proof.
  intros Het Hh Hip Hphase Hlabel.
  rewrite handlePodEvent_unguarded by done.
  assert (index (Labels (PodMeta pod)) labelKey = EmptyString) as ->.
  { unfold index. by destruct Hlabel as [-> | ->]. }
  done.
Qed.

Lemma handlePodEvent_handled_cases eventType pod s :
  handledPods (final (handlePodEvent client eventType pod s)) = handledPods s
  ∨ handledPods (final (handlePodEvent client eventType pod s))
    = delete (namespacedPodName pod) (handledPods s)
  ∨ handledPods (final (handlePodEvent client eventType pod s))
    = <[namespacedPodName pod := true]> (handledPods s).
Proof.
  destruct (decide (eventType = watch.Deleted)) as [->|Het].
  - right; left. rewrite handlePodEvent_deleted.
    destruct (splitHostportStrings _) as [ports [e|]]; [done|].
    destruct (deletePodServicesLoop_run client pod ports
                (withHandledPods s (delete (namespacedPodName pod) (handledPods s))))
      as (r & s' & -> & Hrun). cbn [final].
    destruct r; [destruct Hrun as (? & ? & ? & _ & Hafter)|]; apply Hrun || apply Hafter.
  - destruct (handlePodEvent_cases eventType pod s Het)
      as [[line ->]|[(e & _ & ->)|[_ ->]]]; [by left..|].
    right; right.
    set (marked := withHandledPods s _).
    destruct (createServicesLoop_after client pod
                (splitHostportStrings (index (Labels (PodMeta pod)) labelKey)).1 marked)
      as (issued & _ & _ & -> & _).
    done.
Qed.

(** X18.  [handledPods] is used as a set: it never holds [false].  If
    every entry is [true] before a run of events, every entry is [true]
    after it, whatever the events and however the run ends. *)
Theorem podEventLoop_keeps_only_true events : ∀ s,
  onlyTrue (handledPods s) →
  onlyTrue (handledPods (final (podEventLoop client events s))).
Proof.
  induction events as [|event rest IH]; intros s Htrue; [done|].
  cbn [podEventLoop]. destruct (watch.Object_ event) as [pod|]; [|done].
  unfold bind at 1.
  assert (Hstep : onlyTrue (handledPods (final (handlePodEvent client (watch.Type_ event) pod s)))).
  { destruct (handlePodEvent_handled_cases (watch.Type_ event) pod s) as [->|[->| ->]];
      intros key value.
    - apply Htrue.
    - intros [_ Hin]%lookup_delete_Some. by eapply Htrue.
    - intros [[_ <-]|[_ Hin]]%lookup_insert_Some; [done | by eapply Htrue]. }
  destruct (handlePodEvent client (watch.Type_ event) pod s) as [err s1|v s1];
    cbn [final] in *; [|done].
  unfold bind at 1. destruct err as [e|]; unfold Printf, ret; by apply IH.
Qed.

End Events.

(** ** Further properties: the reaper and the event loop *)

Section Routines.

Context {Cluster : Type} (client : Clientset Cluster).

Implicit Types (s : State Cluster) (pod : Pod).

(** X19.  The reaper spares what [createService] makes for a listed pod.
    A service that carries the metadata derived for some port of a pod is
    found by the reaper's selector (it has the managed-by label with this
    program's value), and it is not stale in any listing of pods that
    contains the pod. *)
Theorem derived_service_is_not_stale pods pod requestedPort service :
  ServiceMeta service = derivedMeta pod requestedPort →
  pod ∈ pods →
  Labels (ServiceMeta service) !! managedByLabelKey = Some managedByLabelValue
  ∧ managedBySelector = managedByLabelKey +:+ "=" +:+ managedByLabelValue
  ∧ isStale pods service = false
  ∧ service ∉ staleServices pods [service].
Proof.
  intros Hmeta Hpod.
  assert (Hstale : isStale pods service = false).
  { unfold isStale. apply negb_false_iff, foundPod_spec. exists pod.
    rewrite Hmeta. unfold index. cbn [derivedMeta Labels Namespace].
    rewrite lookup_insert_ne by done. by rewrite lookup_insert_eq. }
  split; [by rewrite Hmeta; cbn; rewrite lookup_insert_eq|]. split; [done|].
  split; [done|]. unfold staleServices. cbn [List.filter]. rewrite Hstale.
  apply not_elem_of_nil.
Qed.


(** X21.  [serviceManagerRoutine] is fatal exactly when the services
    cannot be listed.  If the service listing returns an error the routine
    logs it to stderr and panics with it, having sent nothing but the two
    listings; otherwise it returns, whatever the pod listing and the
    deletions answered. *)
Theorem serviceManagerRoutine_panics_iff_listing_fails
    namespace s pods podsErr k1 services servicesErr k2 :
  podsList client namespace labelKey (cluster s) = ((pods, podsErr), k1) →
  servicesList client namespace managedBySelector k1 = ((services, servicesErr), k2) →
  match servicesErr with
  | Some e =>
      ∃ s', serviceManagerRoutine client namespace s
            = Panic (PanicMessage "Error while deleting stale services %s" [AError e]) s'
            ∧ calls s' = (calls s ++ [(PodsList namespace labelKey, podsErr);
                                      (ServicesList namespace managedBySelector, Some e)])%list
            ∧ last (output s')
              = Some {| logger := Stderr;
                        format := "Error while deleting stale services %s";
                        args := [AError e] |}
  | None => ∃ s', serviceManagerRoutine client namespace s = Ret tt s'
  end.
Proof.
  intros Hpods Hservices.
  pose proof (deleteStaleServices_run client namespace s pods podsErr k1 services servicesErr k2
                Hpods Hservices) as Hrun.
  cbv zeta in Hrun. unfold serviceManagerRoutine, bind.
  destruct servicesErr as [e|].
  - destruct Hrun as (s' & -> & Hcalls). unfold Printf, panic.
    eexists. split; [done|]. split; [exact Hcalls|]. cbn. apply last_snoc.
  - destruct Hrun as (s' & answers & -> & _). by eexists.
Qed.

Lemma podEventLoop_sequence events1 events2 : ∀ s,
  podEventLoop client (events1 ++ events2) s
  = match podEventLoop client events1 s with
    | Ret _ s1 => podEventLoop client events2 s1
    | Panic v s1 => Panic v s1
    end.
Proof.
  induction events1 as [|event rest IH]; intros s; [done|].
  cbn [app podEventLoop]. destruct (watch.Object_ event) as [pod|]; [|done].
  unfold bind at 1 3.
  destruct (handlePodEvent client (watch.Type_ event) pod s) as [err s1|v s1]; [|done].
  unfold bind at 1 2. destruct err as [e|]; unfold Printf, ret; apply IH.
Qed.

(** X22.  Events are handled one after the other with the state carried
    along: handling a list of events is handling a first part and then, if
    that did not panic, the rest from the state the first part left.  An
    error returned for one event is only logged; it does not end the
    run. *)
Theorem podEventLoop_app events1 events2 s :
  podEventLoop client (events1 ++ events2) s
  = match podEventLoop client events1 s with
    | Ret _ s1 => podEventLoop client events2 s1
    | Panic v s1 => Panic v s1
    end.
Proof.
  revert s. induction events1 as [|event rest IH]; intros s; [done|].
  cbn [app podEventLoop]. destruct (watch.Object_ event) as [pod|]; [|done].
  unfold bind at 1 3.
  destruct (handlePodEvent client (watch.Type_ event) pod s) as [err s1|v s1]; [|done].
  unfold bind at 1 2. destruct err as [e|]; unfold Printf, ret; apply IH.
Qed.

(** X23.  An object that is not a pod ends the run.  When the events
    before it have been handled without a panic, the run logs
    [Unexpected watch object] to stderr and panics with it, in the state
    those events left; the events after it are never handled, so the
    outcome does not depend on them. *)
Theorem podEventLoop_unexpected_object before event rest s s1 :
  watch.Object_ event = watch.OtherObject →
  podEventLoop client before s = Ret tt s1 →
  podEventLoop client (before ++ event :: rest) s
  = Panic (PanicMessage "Unexpected watch object" [])
      (withOutput s1 {| logger := Stderr; format := "Unexpected watch object"; args := [] |}).
Proof.
  intros Hobj Hbefore. rewrite podEventLoop_sequence, Hbefore.
  cbn [podEventLoop]. by rewrite Hobj.
Qed.

Lemma createServicesLoop_returns pod requestedPorts : ∀ s,
  keepsPorts client →
  ∃ r s', createServicesLoop client pod requestedPorts s = Ret r s'.
Proof.
  intros s Hports. revert s.
  induction requestedPorts as [|port rest IH]; intros s; [by eexists _, _|].
  cbn [createServicesLoop]. unfold bind.
  destruct (createService_returns client pod port s Hports) as ([e|] & s1 & ->);
    [by eexists _, _ | apply IH].
Qed.

Lemma handlePodEvent_returns eventType pod s :
  keepsPorts client → ∃ r s', handlePodEvent client eventType pod s = Ret r s'.
Proof.
  intros Hports.
  destruct (decide (eventType = watch.Deleted)) as [->|Het].
  - rewrite handlePodEvent_deleted.
    destruct (splitHostportStrings _) as [ports [e|]]; [by eexists _, _|].
    destruct (deletePodServicesLoop_run client pod ports
                (withHandledPods s (delete (namespacedPodName pod) (handledPods s))))
      as (r & s' & -> & _). by eexists _, _.
  - destruct (handlePodEvent_cases client eventType pod s Het)
      as [[line ->]|[(e & _ & ->)|[_ ->]]]; [by eexists _, _..|].
    by apply createServicesLoop_returns.
Qed.

(** X24.  The event loop survives every error.  When the cluster never
    strips a created service of its ports and every event carries a pod,
    a run over any events returns: no error of a creation, patch, deletion
    or parse ends it or makes it panic. *)
Theorem podEventLoop_never_panics events s :
  keepsPorts client →
  onlyPods events →
  ∃ s', podEventLoop client events s = Ret tt s'.
Proof.
  intros Hports. revert s.
  induction events as [|event rest IH]; intros s Hpods; [by eexists|].
  apply Forall_cons in Hpods as [[pod Hobj] Hpods].
  cbn [podEventLoop]. rewrite Hobj. unfold bind at 1.
  destruct (handlePodEvent_returns (watch.Type_ event) pod s Hports) as (r & s1 & ->).
  unfold bind at 1. destruct r as [e|]; unfold Printf, ret; by apply IH.
Qed.

Lemma podManagerLoop_sequence watches1 watches2 : ∀ s,
  podManagerLoop client (watches1 ++ watches2) s
  = match podManagerLoop client watches1 s with
    | Ret _ s1 => podManagerLoop client watches2 s1
    | Panic v s1 => Panic v s1
    end.
Proof.
  induction watches1 as [|[[e|] events] rest IH]; intros s; [done..|].
  cbn [app podManagerLoop]. unfold bind at 1 3.
  destruct (podEventLoop client events s) as [[] s1|v s1]; [|done].
  unfold bind, Printf. apply IH.
Qed.

(** X25.  Opening a new watch forgets nothing.  Over any number of
    passes of the watch loop, a pod that is in [handledPods] stays there as
    long as no Deleted event for it is delivered, and every cached node
    address stays cached: a watch that delivers the existing pods again
    finds them handled. *)
Theorem podManagerLoop_keeps_handled key watches : ∀ s,
  Forall (λ w, Forall (keepsHandled key) w.2) watches →
  (handledPods s !! key = Some true →
   handledPods (final (podManagerLoop client watches s)) !! key = Some true)
  ∧ (∀ node ip,
       cachedExternalIPs s !! node = Some ip →
       cachedExternalIPs (final (podManagerLoop client watches s)) !! node = Some ip).
Proof.
  induction watches as [|[[e|] events] rest IH]; intros s Hall; [done..|].
  apply Forall_cons in Hall as [Hevents Hall]. cbn [snd] in Hevents.
  pose proof (podEventLoop_keeps_handled client key events s Hevents) as Hh.
  pose proof (λ node ip, podEventLoop_keeps_cache client node ip events s) as Hc.
  assert (Hrun : podManagerLoop client ((None, events) :: rest) s
                 = match podEventLoop client events s with
                   | Ret _ s1 =>
                       podManagerLoop client rest
                         (withOutput s1 {| logger := Stdout; format := "Restart loop";
                                           args := [] |})
                   | Panic v s1 => Panic v s1
                   end).
  { cbn [podManagerLoop]. unfold bind at 1.
    by destruct (podEventLoop client events s) as [[] s1|v s1]. }
  rewrite Hrun.
  destruct (podEventLoop client events s) as [[] s1|v s1]; cbn [final] in *;
    [|split; [exact Hh | exact Hc]].
  destruct (IH (withOutput s1 {| logger := Stdout; format := "Restart loop"; args := [] |})
              Hall) as [IHh IHc].
  split; [intros Hkey; by apply IHh, Hh | intros node ip Hnode; by apply IHc, Hc].
Qed.

(** X26.  Failing to open a watch is fatal.  When the passes before it
    ran through without a panic, a watch that cannot be opened makes the
    routine log the error to stderr and panic with it, in the state those
    passes left: nothing is sent any more, and later watches are never
    opened. *)
Theorem podManagerLoop_watch_failure_is_fatal before e events rest s s1 :
  podManagerLoop client before s = Ret tt s1 →
  podManagerLoop client (before ++ (Some e, events) :: rest) s
  = Panic (PanicMessage "Error while create watch for pods %s" [AError e])
      (withOutput s1 {| logger := Stderr;
                        format := "Error while create watch for pods %s";
                        args := [AError e] |}).
Proof.
  intros Hbefore. by rewrite podManagerLoop_sequence, Hbefore.
Qed.

(** X27.  A fresh start relies on the annotations alone.  The routine
    begins with both maps empty, whatever was remembered before.  A pod
    delivered on its first watch whose requested ports all carry their
    annotation is entered in [handledPods] without any request to the
    cluster. *)
Theorem podManagerRoutine_fresh_start_skips_annotated_pod
    namespace eventType pod requestedPorts s :
  eventType ≠ watch.Deleted →
  PodIP (Status pod) ≠ EmptyString →
  Phase (Status pod) = PodRunning →
  splitHostportStrings (index (Labels (PodMeta pod)) labelKey) = (requestedPorts, None) →
  allAnnotated pod requestedPorts →
  ∃ s', podManagerRoutine client namespace [(None, [eventFor eventType pod])] s = Ret tt s'
        ∧ calls s' = calls s
        ∧ cluster s' = cluster s
        ∧ handledPods s' = {[ namespacedPodName pod := true ]}
        ∧ cachedExternalIPs s' = ∅.
Proof.
  intros Het Hip Hphase Hparse Hall.
  unfold podManagerRoutine, makeMaps. unfold bind at 1. unfold bind at 1. unfold Printf at 1.
  set (fresh := withOutput _ _).
  cbn [podManagerLoop]. unfold bind at 1. cbn [podEventLoop eventFor watch.Object_ watch.Type_].
  unfold bind at 1.
  rewrite handlePodEvent_unguarded; [|done|by subst fresh; cbn; rewrite lookup_empty|done..].
  rewrite Hparse.
  destruct (createServicesLoop_skip client pod requestedPorts
              (withHandledPods fresh (<[namespacedPodName pod := true]> (handledPods fresh)))
              Hall) as (s' & -> & Hcluster & Hcalls & Hhandled & Hcache).
  unfold bind, ret, Printf, podManagerLoop. eexists. split; [done|].
  cbn. rewrite Hcalls, Hcluster, Hhandled, Hcache. by subst fresh.
Qed.

End Routines.

(** ** Further properties: deleting what was created *)

Section Retracting.

(** X28.  A Deleted event removes the services made for its own pod and
    no others.  The deletion sent for port [p] of a pod addresses the
    service derived for port [p'] of a pod [pod'] exactly when the two pods
    have the same namespace and name and the ports are the same (ports not
    negative, as every parsed port is). *)
Theorem deletion_addresses_own_service pod pod' p p' externalIPs :
  0 ≤ p → 0 ≤ p' →
  deletionFor pod p = deletionOf (derivedService pod' p' externalIPs)
  ↔ Namespace (PodMeta pod) = Namespace (PodMeta pod')
    ∧ Name (PodMeta pod) = Name (PodMeta pod')
    ∧ p = p'.
Proof.
  intros Hp Hp'. unfold deletionFor, deletionOf.
  cbn [derivedService derivedMeta ServiceMeta Namespace Name]. split.
  - intros [= Hns Hname]. split; [done|].
    unfold podPortToServiceName in Hname.
    apply (append_sep_inj "-") in Hname as [Hname Hport]; [|by apply Itoa_free_of_dash..].
    split; [done | by apply Itoa_inj].
  - intros (Hns & Hname & ->). unfold podPortToServiceName. by rewrite Hns, Hname.
Qed.

End Retracting.

(** ** Further properties: how much one event sends *)

Section Counting.

Context {Cluster : Type} (client : Clientset Cluster).

Implicit Types (s : State Cluster) (pod : Pod).

Lemma createRun_length pod requestedPort s o issued :
  createRun client pod requestedPort s o issued → (length issued ≤ 4)%nat.
Proof.
  intros [line ?|s' e|s' lookups e Hl|s' lookups newService Hl ? ? ?
         |s' lookups newService k' port0 ports r Hl ? ? ? ?];
    try (assert (length lookups ≤ 1)%nat
           by (unfold nodeLookups in Hl; destruct (_ !! _);
               [subst; cbn; lia | destruct Hl as [? ->]; cbn; lia]));
    cbn [length]; rewrite ?length_app; cbn [length]; lia.
Qed.

Lemma createServicesLoop_length pod requestedPorts : ∀ s,
  ∃ issued,
    calls (final (createServicesLoop client pod requestedPorts s)) = (calls s ++ issued)%list
    ∧ (length issued ≤ 4 * length requestedPorts)%nat.
Proof.
  induction requestedPorts as [|port rest IH]; intros s.
  - exists []. cbn. by rewrite app_nil_r.
  - cbn [createServicesLoop]. unfold bind.
    destruct (createService_run client pod port s) as (issued & [Hcalls _] & Hrun & _).
    apply createRun_length in Hrun.
    destruct (createService client pod port s) as [[e|] s1|v s1]; cbn [final] in *.
    + exists issued. split; [done | cbn [length]; lia].
    + destruct (IH s1) as (issued' & Hcalls' & Hlen').
      exists (issued ++ issued')%list. rewrite Hcalls', Hcalls, app_assoc.
      split; [done|]. rewrite length_app. cbn [length]. lia.
    + exists issued. split; [done | cbn [length]; lia].
Qed.

(** X29.  A bound on the traffic of one event.  With n the number of
    ports the pod's label parses to, a Deleted event sends at most n
    requests and any other event at most 4n (for each port at most the
    endpoints creation, one node query, the service creation and the
    patch).  An event whose label does not parse sends nothing. *)
Theorem handlePodEvent_request_bound eventType pod s :
  ∃ issued,
    calls (final (handlePodEvent client eventType pod s)) = (calls s ++ issued)%list
    ∧ (length issued
       ≤ (if String.eqb eventType watch.Deleted then 1 else 4)
         * length (splitHostportStrings (index (Labels (PodMeta pod)) labelKey)).1)%nat.
Proof.
  destruct (String.eqb_spec eventType watch.Deleted) as [->|Het].
  - rewrite handlePodEvent_deleted.
    destruct (splitHostportStrings _) as [ports [e|]] eqn:Hparse; cbn [fst final].
    { exists []. cbn. rewrite app_nil_r. split; [done | lia]. }
    destruct (deletePodServicesLoop_run client pod ports
                (withHandledPods s (delete (namespacedPodName pod) (handledPods s))))
      as (r & s' & -> & Hrun). cbn [final].
    destruct r as [e|].
    + destruct Hrun as (done & p & rest & -> & [Hcalls _]).
      eexists. split; [exact Hcalls|].
      rewrite !length_app, length_map. cbn [length]. lia.
    + destruct Hrun as [Hcalls _]. eexists. split; [exact Hcalls|].
      rewrite length_map. lia.
  - destruct (handlePodEvent_cases client eventType pod s Het)
      as [[line ->]|[(e & _ & ->)|[_ ->]]]; cbn [final].
    + exists []. cbn. rewrite app_nil_r. split; [done | lia].
    + exists []. rewrite app_nil_r. split; [done | cbn; lia].
    + apply (createServicesLoop_length pod _
               (withHandledPods s (<[namespacedPodName pod := true]> (handledPods s)))).
Qed.

End Counting.

(** ** The further statements at concrete inputs *)

Section MoreScenarios.

Lemma scripted_keepsPorts : keepsPorts scripted.
Proof.
  intros ns service k Hports _. cbn.
  by destruct (ServicePorts (ServiceSpec_ service)).
Qed.

Lemma splitHostportStrings_prints_back_witness :
  splitHostportStrings (strings.Join (map strconv.Itoa [8080; 8082]) ".")
  = ([8080; 8082], None).
Proof.
  apply (splitHostportStrings_prints_back [8080; 8082]); [discriminate|].
  repeat constructor.
Defined.

Lemma splitHostportStrings_reports_first_bad_token_witness :
  splitHostportStrings "8080.70000.x"
  = ([], Some (errors.New "Port is not in valid range")).
Proof.
  destruct (splitHostportStrings_reports_first_bad_token "8080.70000.x"
              ["8080"] "70000" ["x"]) as [(_ & _ & Hrange)|[(_ & Hfit & _)|(Hnum & _)]].
  - reflexivity.
  - vm_compute. repeat constructor.
  - intros [_ Hvalue]. vm_compute in Hvalue. by destruct Hvalue as [_ Hlt].
  - exact Hrange.
  - exfalso. apply Hfit. vm_compute. split; discriminate.
  - discriminate Hnum.
Defined.

Lemma derived_names_do_not_collide_witness :
  Name (PodMeta webPod) = Name (PodMeta annotatedPod) ∧ 8080 = 8080.
Proof.
  apply (derived_names_do_not_collide webPod annotatedPod 8080 8080); [lia | lia|].
  reflexivity.
Defined.

Lemma namespacedPodName_identifies_pod_witness :
  Namespace (PodMeta webPod) = Namespace (PodMeta annotatedPod)
  ∧ Name (PodMeta webPod) = Name (PodMeta annotatedPod).
Proof.
  apply (namespacedPodName_identifies_pod webPod annotatedPod); reflexivity.
Defined.

Lemma createService_restricts_to_cached_address_witness :
  ∃ issued,
    calls (final (createService scripted webPod 8080 (initialState healthy))) = issued
    ∧ ∀ ns service r,
        (ServicesCreate ns service, r) ∈ issued →
        ExternalIPs (ServiceSpec_ service) = ["203.0.113.4"].
Proof.
  destruct (createService_restricts_to_cached_address scripted webPod 8080
              (initialState healthy)) as (issued & Hcalls & Hips).
  exists issued. split; [exact Hcalls|]. intros ns service r Hin.
  exact (Hips ns service r Hin).
Defined.

Lemma createService_patches_assigned_port_witness :
  ∃ data,
    last (calls (final (createService counting webPod 8080 (initialState 30000))))
    = Some (PodsPatch "default" "web" data, None)
    ∧ data = serializedJson 8080 30002.
Proof.
  assert (Hrun : calls (final (createService counting webPod 8080 (initialState 30000)))
                 = [(EndpointsCreate "default" (derivedEndpoints webPod 8080), None);
                    (NodesGet "node-1", None);
                    (ServicesCreate "default" (derivedService webPod 8080 []), None);
                    (PodsPatch "default" "web" (serializedJson 8080 30002), None)])
    by (vm_compute; reflexivity).
  destruct (createService_patches_assigned_port counting webPod 8080 (initialState 30000))
    as (issued & Hcalls & Hpatch).
  rewrite Hrun in Hcalls. cbn [calls initialState app] in Hcalls. subst issued.
  edestruct Hpatch
    as (before & service & newService & k' & port0 & ports
        & Hissued & Hanswer & Hports & Hdata & _);
    [do 3 apply list_elem_of_further; apply list_elem_of_here|].
  exists (serializedJson 8080 30002). split; [by rewrite Hrun|].
  change ([?a; ?b; ?c; ?d] = ?r) with (([a; b] ++ [c; d])%list = r) in Hissued.
  apply app_inj_2 in Hissued as [<- [= <-]]; [|reflexivity].
  injection Hanswer as <- _. injection Hports as <- _. exact Hdata.
Defined.

Lemma createService_panics_only_without_ports_witness :
  (∃ s', createService stripping webPod 8080 (initialState healthy)
         = Panic (IndexOutOfRange 0 0) s')
  ∧ ∃ r s', createService scripted webPod 8080 (initialState healthy) = Ret r s'.
Proof.
  split.
  - assert (Hpanic : createService stripping webPod 8080 (initialState healthy)
                     = Panic (IndexOutOfRange 0 0)
                         (final (createService stripping webPod 8080 (initialState healthy))))
      by (vm_compute; reflexivity).
    destruct (createService_panics_only_without_ports stripping webPod 8080
                (initialState healthy)) as [Honly _].
    destruct (Honly _ _ Hpanic) as [_ _]. by eexists.
  - apply (createService_panics_only_without_ports scripted webPod 8080 (initialState healthy)).
    apply scripted_keepsPorts.
Defined.

Lemma handlePodEvent_touches_own_entries_witness :
  handledPods (final (handlePodEvent scripted watch.Deleted (podNamed "a" "8080" "10.0.0.8" ∅)
                        exposedState)) !! "default/web"
  = handledPods exposedState !! "default/web".
Proof.
  apply (handlePodEvent_touches_own_entries scripted watch.Deleted
           (podNamed "a" "8080" "10.0.0.8" ∅) exposedState).
  discriminate.
Defined.

Lemma handlePodEvent_requests_own_ports_witness :
  ∃ issued,
    calls (final (handlePodEvent scripted watch.Added webPod (initialState healthy)))
    = (calls (initialState healthy) ++ issued)%list
    ∧ Forall (λ cr, ∃ q, q ∈ [8080; 8082] ∧ requestFor webPod q cr.1) issued.
Proof.
  apply (handlePodEvent_requests_own_ports scripted watch.Added webPod (initialState healthy)).
  discriminate.
Defined.

Lemma handlePodEvent_stops_at_first_failure_witness :
  ∃ done p rest s1,
    [8080; 8082] = (done ++ p :: rest)%list
    ∧ createService scripted webPod p s1
      = handlePodEvent scripted watch.Added webPod
          (initialState (withPatchError healthy conflict)).
Proof.
  assert (Hfail : handlePodEvent scripted watch.Added webPod
                    (initialState (withPatchError healthy conflict))
                  = Ret (Some conflict)
                      (final (handlePodEvent scripted watch.Added webPod
                                (initialState (withPatchError healthy conflict)))))
    by (vm_compute; reflexivity).
  destruct (handlePodEvent_stops_at_first_failure scripted watch.Added webPod [8080; 8082]
              (initialState (withPatchError healthy conflict)))
    as (done & p & rest & s1 & issued & Hsplit & _ & Hp & _);
    [discriminate | vm_compute; discriminate | discriminate | reflexivity | reflexivity| |].
  - intros s'. rewrite Hfail. discriminate.
  - by exists done, p, rest, s1.
Defined.

Lemma handlePodEvent_deleted_malformed_label_witness :
  handlePodEvent scripted watch.Deleted mislabelledPod exposedState
  = Ret (Some (NumError "Atoi" "http" strconv.ErrSyntax))
      (withHandledPods exposedState
         (delete (namespacedPodName mislabelledPod) (handledPods exposedState))).
Proof.
  apply (handlePodEvent_deleted_malformed_label scripted mislabelledPod). reflexivity.
Defined.

Lemma handlePodEvent_deleted_then_added_witness :
  handledPods (final (handlePodEvent scripted watch.Deleted webPod exposedState))
    !! namespacedPodName webPod = None
  ∧ kinds (final (handlePodEvent scripted watch.Added webPod
                    (final (handlePodEvent scripted watch.Deleted webPod exposedState))))
    <> kinds (final (handlePodEvent scripted watch.Deleted webPod exposedState)).
Proof.
  destruct (handlePodEvent_deleted_then_added scripted webPod exposedState) as [Hgone Hagain].
  split; [exact Hgone|].
  rewrite (Hagain watch.Added webPod); [|discriminate | reflexivity | discriminate | reflexivity].
  vm_compute. discriminate.
Defined.

Lemma handlePodEvent_annotated_pod_sends_nothing_witness :
  ∃ s', handlePodEvent scripted watch.Added annotatedPod (initialState healthy) = Ret None s'
        ∧ calls s' = calls (initialState healthy).
Proof.
  destruct (handlePodEvent_annotated_pod_sends_nothing scripted watch.Added annotatedPod [8080]
              (initialState healthy)) as (s' & Hrun & Hcalls & _);
    [discriminate | vm_compute; discriminate | discriminate | reflexivity | reflexivity| |].
  - constructor; [|constructor]. vm_compute. discriminate.
  - by exists s'.
Defined.

Lemma handlePodEvent_missing_label_witness :
  handlePodEvent scripted watch.Added unlabelledPod (initialState healthy)
  = Ret (Some (NumError "Atoi" EmptyString strconv.ErrSyntax)) (initialState healthy).
Proof.
  apply (handlePodEvent_missing_label scripted watch.Added unlabelledPod (initialState healthy));
    [discriminate | vm_compute; discriminate | discriminate | reflexivity | left; reflexivity].
Defined.

Lemma podEventLoop_keeps_only_true_witness :
  ∃ value,
    handledPods (final (podEventLoop scripted [eventFor watch.Added webPod]
                          (initialState healthy))) !! "default/web" = Some value
    ∧ value = true.
Proof.
  exists true. split; [vm_compute; reflexivity|].
  refine (podEventLoop_keeps_only_true scripted [eventFor watch.Added webPod]
            (initialState healthy) _ "default/web" true _).
  - intros key value Hin. vm_compute in Hin. discriminate.
  - vm_compute. reflexivity.
Defined.

Lemma derived_service_is_not_stale_witness :
  isStale [webPod] (derivedService webPod 8080 []) = false.
Proof.
  apply (derived_service_is_not_stale [webPod] webPod 8080 (derivedService webPod 8080 [])).
  - reflexivity.
  - apply list_elem_of_here.
Defined.


Lemma serviceManagerRoutine_panics_iff_listing_fails_witness :
  (∃ s', serviceManagerRoutine scripted "default" (initialState healthy) = Ret tt s')
  ∧ ∃ s', serviceManagerRoutine scripted "default"
            (initialState (withServicesListError healthy conflict))
          = Panic (PanicMessage "Error while deleting stale services %s" [AError conflict]) s'.
Proof.
  split.
  - apply (serviceManagerRoutine_panics_iff_listing_fails scripted "default"
             (initialState healthy) (listedPods healthy) None healthy
             (listedServices healthy) None healthy eq_refl eq_refl).
  - destruct (serviceManagerRoutine_panics_iff_listing_fails scripted "default"
                (initialState (withServicesListError healthy conflict))
                (listedPods healthy) None (withServicesListError healthy conflict)
                (listedServices healthy) (Some conflict)
                (withServicesListError healthy conflict) eq_refl eq_refl)
      as (s' & Hrun & _).
    by exists s'.
Defined.

Lemma podEventLoop_unexpected_object_witness :
  ∃ s', podEventLoop scripted [eventFor watch.Added webPod; strayEvent;
                               eventFor watch.Deleted webPod] (initialState healthy)
        = Panic (PanicMessage "Unexpected watch object" []) s'.
Proof.
  eexists.
  apply (podEventLoop_unexpected_object scripted [eventFor watch.Added webPod] strayEvent
           [eventFor watch.Deleted webPod] (initialState healthy)).
  - reflexivity.
  - vm_compute. reflexivity.
Defined.

Lemma podEventLoop_never_panics_witness :
  ∃ s', podEventLoop scripted [eventFor watch.Added webPod; eventFor watch.Added mislabelledPod]
          (initialState (withPatchError healthy conflict)) = Ret tt s'.
Proof.
  apply (podEventLoop_never_panics scripted).
  - apply scripted_keepsPorts.
  - repeat constructor; by eexists.
Defined.

Lemma podManagerLoop_keeps_handled_witness :
  handledPods (final (podManagerLoop scripted
                        [(None, [eventFor watch.Added webPod]);
                         (None, [eventFor watch.Modified webPod])] exposedState))
    !! "default/web" = Some true.
Proof.
  apply (podManagerLoop_keeps_handled scripted "default/web").
  - repeat constructor; intros [Hdeleted _]; discriminate Hdeleted.
  - vm_compute. reflexivity.
Defined.

Lemma podManagerLoop_watch_failure_is_fatal_witness :
  ∃ s', podManagerLoop scripted
          [(None, [eventFor watch.Added webPod]); (Some conflict, []);
           (None, [eventFor watch.Deleted webPod])] (initialState healthy)
        = Panic (PanicMessage "Error while create watch for pods %s" [AError conflict]) s'.
Proof.
  eexists.
  apply (podManagerLoop_watch_failure_is_fatal scripted [(None, [eventFor watch.Added webPod])]
           conflict [] [(None, [eventFor watch.Deleted webPod])] (initialState healthy)).
  vm_compute. reflexivity.
Defined.

Lemma podManagerRoutine_fresh_start_skips_annotated_pod_witness :
  ∃ s', podManagerRoutine scripted "default" [(None, [eventFor watch.Added annotatedPod])]
          exposedState = Ret tt s'
        ∧ calls s' = calls exposedState.
Proof.
  destruct (podManagerRoutine_fresh_start_skips_annotated_pod scripted "default" watch.Added
              annotatedPod [8080] exposedState) as (s' & Hrun & Hcalls & _);
    [discriminate | discriminate | reflexivity | reflexivity| |].
  - constructor; [|constructor]. vm_compute. discriminate.
  - by exists s'.
Defined.

Lemma deletion_addresses_own_service_witness :
  deletionFor webPod 8080 = deletionOf (derivedService annotatedPod 8080 []).
Proof.
  apply (deletion_addresses_own_service webPod annotatedPod 8080 8080 []); [lia | lia|].
  by repeat split.
Defined.

End MoreScenarios.
